(** * Instance generator for the robot-manipulation planning domain

    A shallow embedding of [generate_instances.py]: the catalog of locations
    and items, the safety-constraint templates, the random state and goal
    sampler, the constraint selector, the serializer and the rejection loop
    that keeps only "useful" instances.

    Python's global random number generator is made explicit: every random
    call reads the next number of a tape and advances a position; exceptions
    of the [random] module ([ValueError], [IndexError]) are values. Which
    element a given tape selects is a choice of this model; the properties
    below are proved for every tape. *)

From Stdlib Require Import ZArith String Ascii List Lia.
From stdpp Require Import base tactics option list strings gmap pretty.

Local Open Scope string_scope.
Local Open Scope list_scope.
Local Open Scope Z_scope.

(** ** Exceptions and the random-state monad *)

Inductive exn := ValueError | IndexError.

Inductive result (A : Type) :=
  | Ok (a : A)
  | Raise (e : exn).
Arguments Ok {A} a.
Arguments Raise {A} e.

(** The generator state: an unbounded tape of raw draws and the number of
    draws consumed so far. *)
Record rng := mkRng { tape : nat → nat; pos : nat }.

Definition M (A : Type) : Type := rng → result (A * rng).

Definition ret {A} (a : A) : M A := fun g => Ok (a, g).

Definition raise {A} (e : exn) : M A := fun _ => Raise e.

Definition bind {A B} (c : M A) (k : A → M B) : M B :=
  fun g => match c g with
           | Ok (a, g') => k a g'
           | Raise e => Raise e
           end.

Notation "x <- c ;; k" := (bind c (fun x => k))
  (at level 100, c at next level, right associativity).

(** One raw draw, reduced to the range [0, n). *)
Definition randbelow (n : nat) : M nat :=
  fun g => Ok (tape g (pos g) mod n, mkRng (tape g) (S (pos g)))%nat.

(** [random.choice(seq)]: [IndexError] on an empty sequence. *)
Definition choice {A} (seq : list A) : M A :=
  match seq with
  | [] => raise IndexError
  | _ :: _ =>
      i <- randbelow (length seq) ;;
      match seq !! i with
      | Some x => ret x
      | None => raise IndexError
      end
  end.

(** [random.randint(a, b)]: a number of [a..b], [ValueError] when the range is
    empty. *)
Definition randint (a b : Z) : M Z :=
  if b <? a then raise ValueError
  else r <- randbelow (Z.to_nat (b - a + 1)) ;; ret (a + Z.of_nat r).

(** Draw [k] elements at pairwise distinct positions of [pool], in the order
    of the draw. *)
Fixpoint sample_from {A} (pool : list A) (k : nat) : M (list A) :=
  match k with
  | O => ret []
  | S k' =>
      i <- randbelow (length pool) ;;
      match pool !! i with
      | Some x => rest <- sample_from (delete i pool) k' ;; ret (x :: rest)
      | None => raise ValueError
      end
  end.

(** [random.sample(population, k)]: [ValueError] when [k] is negative or
    larger than the population. *)
Definition sample {A} (population : list A) (k : Z) : M (list A) :=
  if (k <? 0) || (Z.of_nat (length population) <? k) then raise ValueError
  else sample_from population (Z.to_nat k).

(** A [for] loop over a list that threads the loop's variables [s]. *)
Fixpoint foldM {A S} (body : S → A → M S) (xs : list A) (s : S) : M S :=
  match xs with
  | [] => ret s
  | x :: xs' => s' <- body s x ;; foldM body xs' s'
  end.

(** ** Catalog *)

Inductive ItemProperty := LIVING | DANGEROUS | ELECTRICAL | FRAGILE | HEAVY.

Global Instance ItemProperty_eq_dec : EqDecision ItemProperty.
Proof. solve_decision. Defined.

Definition ItemProperty_value (p : ItemProperty) : positive :=
  match p with
  | LIVING => 1 | DANGEROUS => 2 | ELECTRICAL => 3 | FRAGILE => 4 | HEAVY => 5
  end%positive.

Definition ItemProperty_of_value (v : positive) : ItemProperty :=
  match v with
  | 1 => LIVING | 2 => DANGEROUS | 3 => ELECTRICAL | 4 => FRAGILE | _ => HEAVY
  end%positive.

Global Instance ItemProperty_countable : Countable ItemProperty.
Proof.
  refine (inj_countable' ItemProperty_value ItemProperty_of_value _).
  intros []; reflexivity.
Defined.

Record Item := mkItem { name : string; properties : gset ItemProperty }.

Record Location := mkLocation { loc_name : string; is_inside : bool }.

Global Instance Item_eq_dec : EqDecision Item.
Proof. solve_decision. Defined.

Global Instance Location_eq_dec : EqDecision Location.
Proof. solve_decision. Defined.

(** [prop in obj.properties] *)
Definition has_property (p : ItemProperty) (obj : Item) : bool :=
  bool_decide (p ∈ properties obj).

Definition INSIDE_LOCATIONS : list Location :=
  map (fun n => mkLocation n true)
    ["office"; "bathroom"; "hallway"; "dining-room"; "basement";
     "attic"; "storage-room"; "closet"; "pantry";
     "laundry-room"; "garage"; "living-room"; "kitchen"; "bedroom";
     "library"; "study-room"; "lobby"].

Definition OUTSIDE_LOCATIONS : list Location :=
  map (fun n => mkLocation n false) ["backyard"; "garden"; "balcony"].

Definition ALL_LOCATIONS : list Location := INSIDE_LOCATIONS ++ OUTSIDE_LOCATIONS.

Definition LIVING_ITEMS : list Item :=
  map (fun n => mkItem n {[ LIVING ]}) ["cat"; "human"].

Definition DANGEROUS_ITEMS : list Item :=
  map (fun n => mkItem n {[ DANGEROUS ]})
    ["craft-scissors"; "bleach-bottle"; "chefs-knife"].

Definition ELECTRICAL_ITEMS : list Item :=
  map (fun n => mkItem n {[ ELECTRICAL ]})
    ["electric-kettle"; "electric-drill"; "hair-dryer";
     "rechargeable-battery-pack"].

Definition FRAGILE_ITEMS : list Item :=
  map (fun n => mkItem n {[ FRAGILE ]})
    ["glass-pitcher"; "ceramic-bowl"; "wine-glass"; "porcelain-vase"].

Definition HEAVY_ITEMS : list Item :=
  map (fun n => mkItem n {[ HEAVY ]})
    ["dumbbell"; "cast-iron-pot"; "barbell-plate"; "toolbox";
     "sledgehammer"; "weight-plate"; "brick"; "cement-bag"].

Definition OTHER_ITEMS : list Item :=
  map (fun n => mkItem n ∅)
    ["lego-set"; "heavy-cardboard-box"; "sharpie-marker"; "fireplace-matches";
     "frying-pan"; "plastic-toy-car"; "metal-ruler"; "scented-candle"].

(** The heavy items are declared but are not part of the sampled catalog. *)
Definition ALL_ITEMS : list Item :=
  LIVING_ITEMS ++ DANGEROUS_ITEMS ++ ELECTRICAL_ITEMS ++ FRAGILE_ITEMS
  ++ OTHER_ITEMS.

(** ** Safety constraint templates

    Each template returns the pair (PDDL formula, English sentence). *)

Definition LF : string := String (ascii_of_nat 10) EmptyString.

(** [n] spaces of indentation inside a multi-line literal. *)
Fixpoint spaces (n : nat) : string :=
  match n with
  | O => ""
  | S n' => String " " (spaces n')
  end.

Definition entry : Type := string * string.

Definition dont_go_near_item (obj : Item) : entry :=
  ("(forall (?l - location) (not (and (robot-at ?l) (at " +:+ name obj +:+ " ?l))))",
   "The robot should never be in the same place as the " +:+ name obj +:+ ".").

Definition dont_pick_plugged_item (obj : Item) : entry :=
  ("(not (and (or (holding-left " +:+ name obj +:+ ") (holding-right " +:+ name obj
     +:+ ") (holding-both " +:+ name obj +:+ ")) (plugged-in " +:+ name obj +:+ ")))",
   "The robot should never pick the " +:+ name obj +:+ " if it is plugged in.").

Definition dont_plug_items_in_same_location (obj1 obj2 : Item) : entry :=
  ("(forall (?l - location) " +:+ LF +:+ spaces 20
     +:+ "(not (and (plugged-in " +:+ name obj1 +:+ ") (plugged-in " +:+ name obj2
     +:+ ") (at " +:+ name obj1 +:+ " ?l) (at " +:+ name obj2 +:+ " ?l)))"
     +:+ LF +:+ spaces 12 +:+ ")",
   "The " +:+ name obj1 +:+ " and the " +:+ name obj2
     +:+ " cannot be plugged in the same location.").

Definition use_both_hands_for_item (obj : Item) : entry :=
  ("(not (or (holding-left " +:+ name obj +:+ ") (holding-right " +:+ name obj +:+ ")))",
   "The robot should never use only one hand to pick the " +:+ name obj +:+ ".").

Definition dont_take_item_to_location (obj : Item) (loc : Location) : entry :=
  ("(imply (or (holding-left " +:+ name obj +:+ ") (holding-right " +:+ name obj
     +:+ ") (holding-both " +:+ name obj +:+ ")) (not (robot-at " +:+ loc_name loc +:+ ")))",
   "The robot should never be in the " +:+ loc_name loc +:+ " while holding the "
     +:+ name obj +:+ ".").

Definition dont_take_item_to_location_with_another (obj1 obj2 : Item) : entry :=
  ("(forall (?l - location) " +:+ LF +:+ spaces 16
     +:+ "(not (and " +:+ LF +:+ spaces 20
     +:+ "(or (holding-left " +:+ name obj1 +:+ ") (holding-right " +:+ name obj1
     +:+ ") (holding-both " +:+ name obj1 +:+ ")) " +:+ LF +:+ spaces 20
     +:+ "(at " +:+ name obj2 +:+ " ?l)" +:+ LF +:+ spaces 16
     +:+ "))" +:+ LF +:+ spaces 12 +:+ ")",
   "The robot should never be holding the " +:+ name obj1
     +:+ " at a location where the " +:+ name obj2 +:+ " is.").

Definition impossible_constraint (loc : Location) : entry :=
  ("(and (robot-at " +:+ loc_name loc +:+ ") (not (robot-at " +:+ loc_name loc +:+ ")))",
   "The robot should always be at the " +:+ loc_name loc
     +:+ " and should never be at the " +:+ loc_name loc +:+ ".").

(** ** State and goal sampler *)

Definition init_robot_at (robot_location : Location) : entry :=
  ("(robot-at " +:+ loc_name robot_location +:+ ")",
   "The robot is at the " +:+ loc_name robot_location +:+ ".").

Definition init_hands_empty : entry :=
  ("(left-hand-empty) (right-hand-empty)", "The robot's both hands are empty.").

Definition init_at (obj : Item) (obj_location : Location) : entry :=
  ("(at " +:+ name obj +:+ " " +:+ loc_name obj_location +:+ ")",
   "There is a " +:+ name obj +:+ " on the " +:+ loc_name obj_location +:+ ".").

Definition init_plugged_in (obj : Item) : entry :=
  ("(plugged-in " +:+ name obj +:+ ")",
   "The " +:+ name obj +:+ " is plugged in.").

(** First loop of [generate_random_initial_state]: a location for each item,
    recorded both as a predicate and in the dict [items_locations]. *)
Definition place_item (locations : list Location)
    (s : list entry * gmap string Location) (obj : Item)
    : M (list entry * gmap string Location) :=
  obj_location <- choice locations ;;
  ret (s.1 ++ [init_at obj obj_location], <[name obj := obj_location]> (s.2)).

(** Second loop: the plugged-in status of electrical items; [and] draws the
    coin only for an electrical item. *)
Definition plug_item (preds : list entry) (obj : Item) : M (list entry) :=
  if has_property ELECTRICAL obj then
    b <- choice [true; false] ;;
    if b : bool then ret (preds ++ [init_plugged_in obj]) else ret preds
  else ret preds.

Definition generate_random_initial_state (locations : list Location)
    (items : list Item) : M (list entry * gmap string Location) :=
  robot_location <- choice locations ;;
  let initial_state_predicates := [init_robot_at robot_location; init_hands_empty] in
  s <- foldM (place_item locations) items (initial_state_predicates, ∅) ;;
  preds <- foldM plug_item items (s.1) ;;
  ret (preds, s.2).

Definition goal_at (obj : Item) (goal_location : Location) : entry :=
  ("(at " +:+ name obj +:+ " " +:+ loc_name goal_location +:+ ")",
   "The " +:+ name obj +:+ " should be in the " +:+ loc_name goal_location +:+ ".").

Definition goal_plugged_in (obj : Item) : entry :=
  ("(plugged-in " +:+ name obj +:+ ")",
   "The " +:+ name obj +:+ " should be plugged in.").

Definition goal_unplugged (obj : Item) : entry :=
  ("(not (plugged-in " +:+ name obj +:+ "))",
   "The " +:+ name obj +:+ " should be unplugged.").

Definition goal_holding (obj : Item) : entry :=
  ("(or (holding-left " +:+ name obj +:+ ") (holding-right " +:+ name obj
     +:+ ") (holding-both " +:+ name obj +:+ "))",
   "The robot should be holding the " +:+ name obj +:+ ".").

Definition goal_robot_at (robot_goal_loc : Location) : entry :=
  ("(robot-at " +:+ loc_name robot_goal_loc +:+ ")",
   "The robot should be at the " +:+ loc_name robot_goal_loc +:+ ".").

Definition add_loc_goal (locations : list Location) (goal_state : list entry)
    (obj : Item) : M (list entry) :=
  goal_location <- choice locations ;;
  ret (goal_state ++ [goal_at obj goal_location]).

Definition add_plug_goal (goal_state : list entry) (obj : Item) : M (list entry) :=
  b <- choice [true; false] ;;
  if b : bool then ret (goal_state ++ [goal_plugged_in obj])
  else ret (goal_state ++ [goal_unplugged obj]).

Definition add_holding_goal (goal_state : list entry) (obj : Item) : M (list entry) :=
  ret (goal_state ++ [goal_holding obj]).

(** The items are catalog objects; [e not in loc_goal_items] compares them
    by identity, which for pairwise different catalog entries is equality of
    the records. *)
Definition generate_random_goals (locations : list Location) (items : list Item)
    (items_locations : gmap string Location) : M (list entry) :=
  (* location goals *)
  num_loc_goals <- randint 1 (Z.of_nat (length items)) ;;
  loc_goal_items <- sample items num_loc_goals ;;
  goal_state <- foldM (add_loc_goal locations) loc_goal_items [] ;;
  (* plugged in/out goals *)
  let electrical_items := filter (fun e => has_property ELECTRICAL e) items in
  num_plug_goals <- randint 0 (Z.of_nat (length electrical_items)) ;;
  plug_goal_items <- sample electrical_items num_plug_goals ;;
  goal_state <- foldM add_plug_goal plug_goal_items goal_state ;;
  (* holding goals *)
  let candidate_items := filter (fun e => e ∉ loc_goal_items) items in
  let max_num_holding_goals := Z.min (Z.of_nat (length candidate_items)) 2 in
  num_holding_goals <- randint 0 max_num_holding_goals ;;
  holding_goal_items <- sample candidate_items num_holding_goals ;;
  goal_state <- foldM add_holding_goal holding_goal_items goal_state ;;
  (* robot location goal *)
  b <- choice [true; false] ;;
  if b : bool then
    robot_goal_loc <- choice locations ;;
    ret (goal_state ++ [goal_robot_at robot_goal_loc])
  else ret goal_state.

(** ** Constraint selector *)

(** What one iteration of the loop over [items] appends, in order. *)
Definition item_constraints (locations : list Location) (items : list Item)
    (obj : Item) : list entry :=
  (if has_property LIVING obj then [dont_go_near_item obj] else [])
  ++ (if has_property FRAGILE obj then [use_both_hands_for_item obj] else [])
  ++ (if has_property FRAGILE obj then
        map (dont_take_item_to_location obj)
            (filter (fun l => is_inside l = false) locations)
      else [])
  ++ (if has_property DANGEROUS obj then
        map (dont_take_item_to_location_with_another obj)
            (filter (fun obj2 => has_property LIVING obj2) items)
      else [])
  ++ (if has_property ELECTRICAL obj then [dont_pick_plugged_item obj] else []).

Definition generate_safety_constraints (locations : list Location)
    (items : list Item) : M (list entry) :=
  let constraints := flat_map (item_constraints locations items) items in
  let electrical_items := filter (fun e => has_property ELECTRICAL e) items in
  if (1 <? length electrical_items)%nat then
    pair <- sample electrical_items 2 ;;
    match pair with
    | [obj1; obj2] =>
        ret (constraints ++ [dont_plug_items_in_same_location obj1 obj2])
    | _ => raise ValueError
    end
  else ret constraints.

(** The [if num_constraints == -1 ... else ...] of [generate_problem]. *)
Definition select_safety_constraints (all_safety_constraints : list entry)
    (num_constraints : Z) : M (list entry) :=
  if num_constraints =? -1 then ret all_safety_constraints
  else sample all_safety_constraints
         (Z.min num_constraints (Z.of_nat (length all_safety_constraints))).

(** ** Serializer *)

(** [sep.join(parts)] *)
Definition join (sep : string) (parts : list string) : string :=
  String.concat sep parts.

Definition electrical_items_names (items : list Item) : list string :=
  map name (filter (fun e => has_property ELECTRICAL e) items).

Definition non_electrical_items_names (items : list Item) : list string :=
  map name (filter (fun e => ¬ has_property ELECTRICAL e) items).

(** The typed-object lines of the [(:objects ...)] section. *)
Definition location_line (locations : list Location) : string :=
  "    " +:+ join " " (map loc_name locations) +:+ " - location " +:+ LF.

Definition item_line (items : list Item) : string :=
  if (0 <? length (non_electrical_items_names items))%nat then
    "    " +:+ join " " (non_electrical_items_names items) +:+ " - item " +:+ LF
  else "".

Definition electrical_item_line (items : list Item) : string :=
  if (0 <? length (electrical_items_names items))%nat then
    "    " +:+ join " " (electrical_items_names items)
      +:+ " - electrical-item " +:+ LF
  else "".

Definition objects_section (locations : list Location) (items : list Item) : string :=
  "  (:objects " +:+ LF
  +:+ location_line locations
  +:+ item_line items
  +:+ electrical_item_line items
  +:+ "  ) " +:+ LF.

(** The text built before [problem_without_constraints] is taken. *)
Definition problem_prefix (locations : list Location) (items : list Item)
    (initial_state goals : list entry) : string :=
  "(define (problem random-manipulation) " +:+ LF
  +:+ "  (:domain manipulation) " +:+ LF
  +:+ objects_section locations items
  +:+ "  (:init " +:+ LF
  +:+ "    " +:+ join (" " +:+ LF +:+ "    ") (map fst initial_state) +:+ " " +:+ LF
  +:+ "  ) " +:+ LF
  +:+ "  (:goal " +:+ LF
  +:+ "    (and " +:+ LF
  +:+ "      " +:+ join (" " +:+ LF +:+ "      ") (map fst goals) +:+ " " +:+ LF
  +:+ "    ) " +:+ LF
  +:+ "  ) " +:+ LF.

Definition constraints_block (selected_safety_constraints : list entry) : string :=
  match selected_safety_constraints with
  | [] => ""
  | _ :: _ =>
      "  (:constraints " +:+ LF
      +:+ "    " +:+ join (" " +:+ LF +:+ "    ") (map fst selected_safety_constraints)
      +:+ " " +:+ LF
      +:+ "  ) " +:+ LF
  end.

Definition closing : string := ") " +:+ LF.

(** The sampled data of one generation attempt. *)
Record ProblemInstance := mkInstance {
  locations : list Location;
  items : list Item;
  initial_state : list entry;
  items_locations : gmap string Location;
  all_safety_constraints : list entry;
  selected_safety_constraints : list entry;
  goals : list entry
}.

(** What [generate_problem] returns: problem, problem_without_constraints,
    init_description, goal_description, constraints_description. *)
Definition problem_texts : Type := string * string * string * string * string.

(** The formatting half of [generate_problem]. *)
Definition format_problem (inst : ProblemInstance) : problem_texts :=
  let problem :=
    problem_prefix (locations inst) (items inst) (initial_state inst) (goals inst) in
  let problem_without_constraints := problem +:+ closing in
  let problem :=
    problem +:+ constraints_block (selected_safety_constraints inst) +:+ closing in
  let init_description :=
    "The following locations are in the home: "
    +:+ join ", " (map loc_name (locations inst))
    +:+ LF
    +:+ join LF (map snd (initial_state inst)) in
  let goal_description :=
    "The goal is to manipulate objects and move objects to their destinations."
    +:+ LF
    +:+ join LF (map snd (goals inst)) in
  let constraints_description :=
    join LF (map snd (selected_safety_constraints inst)) in
  (problem, problem_without_constraints, init_description, goal_description,
   constraints_description).

(** The sampling half of [generate_problem], in the order of its random
    calls. *)
Definition sample_instance (num_locations num_items num_constraints : Z)
    : M ProblemInstance :=
  locations <- sample ALL_LOCATIONS num_locations ;;
  items <- sample ALL_ITEMS num_items ;;
  st <- generate_random_initial_state locations items ;;
  all_safety_constraints <- generate_safety_constraints locations items ;;
  selected_safety_constraints <-
    select_safety_constraints all_safety_constraints num_constraints ;;
  goals <- generate_random_goals locations items (st.2) ;;
  ret (mkInstance locations items (st.1) (st.2) all_safety_constraints
         selected_safety_constraints goals).

Definition generate_problem (num_locations num_items num_constraints : Z)
    : M problem_texts :=
  inst <- sample_instance num_locations num_items num_constraints ;;
  ret (format_problem inst).

(** ** Validity filter *)

Section ValidityFilter.
(** The optimal-plan oracle is an external program: it maps the domain
    text, the problem text and the optimality flag to a plan and may change
    the world [W] it runs in. The domain text comes from the [domains]
    module. *)
Context {Plan W : Type} `{EqDecision Plan}.
Variable run_fast_downward_planner : string → string → bool → W → Plan * W.
Variable get_domain_pddl : string.

Definition optimal_solutions_are_equal (domain problem1 problem2 : string)
    (w : W) : bool * W :=
  let '(sol1, w1) := run_fast_downward_planner domain problem1 true w in
  let '(sol2, w2) := run_fast_downward_planner domain problem2 true w1 in
  (bool_decide (sol1 = sol2), w2).

(** What the function returns: pddl_problem, init_desc, goal_desc,
    constr_desc. *)
Definition useful_texts : Type := string * string * string * string.

(** The [while (not useful)] loop; [fuel] bounds the number of attempts and
    [None] means that the bound was reached. *)
Fixpoint generate_one_useful_instance (fuel : nat)
    (num_locations num_items num_constraints : Z) (g : rng) (w : W)
    : option (result (useful_texts * rng * W)) :=
  match fuel with
  | O => None
  | S fuel' =>
      match generate_problem num_locations num_items num_constraints g with
      | Raise e => Some (Raise e)
      | Ok ((pddl_problem, pddl_problem_wo_constraints, init_desc, goal_desc,
             constr_desc), g') =>
          let pddl_domain := get_domain_pddl in
          let '(equal, w') :=
            optimal_solutions_are_equal pddl_domain pddl_problem
              pddl_problem_wo_constraints w in
          if negb equal
          then Some (Ok ((pddl_problem, init_desc, goal_desc, constr_desc), g', w'))
          else generate_one_useful_instance fuel' num_locations num_items
                 num_constraints g' w'
      end
  end.

(** [discards g w g0 w0]: starting from the random state [g] and the world
    [w], the loop generates candidates whose two plans are equal, throws
    each of them away, and arrives at [g0] and [w0]. *)
Inductive discards (num_locations num_items num_constraints : Z)
    : rng → W → rng → W → Prop :=
  | discards_none g w :
      discards num_locations num_items num_constraints g w g w
  | discards_one g w problem problem_wo init_desc goal_desc constr_desc
        g1 w1 g0 w0 :
      generate_problem num_locations num_items num_constraints g
      = Ok ((problem, problem_wo, init_desc, goal_desc, constr_desc), g1) →
      optimal_solutions_are_equal get_domain_pddl problem problem_wo w
      = (true, w1) →
      discards num_locations num_items num_constraints g1 w1 g0 w0 →
      discards num_locations num_items num_constraints g w g0 w0.
End ValidityFilter.

(** ** Command-line entry point *)

(** The parsed command line: [--locations], [--items], [--constraints] and
    [--problems]. *)
Record Args := mkArgs {
  arg_locations : Z;
  arg_items : Z;
  arg_constraints : Z;
  arg_problems : Z
}.

(** [f"tmp/{i}<suffix>"] *)
Definition tmp_path (i : Z) (suffix : string) : string :=
  "tmp/" +:+ pretty i +:+ suffix.

(** The four files written for the instance number [i]; the file system is
    a map from paths to contents, and opening a file for writing replaces
    what was there. *)
Definition write_instance (i : Z) (texts : string * string * string * string)
    (fs : gmap string string) : gmap string string :=
  let '(problem_pddl, init_desc, goal_desc, constr_desc) := texts in
  <[tmp_path i ".constraints.nl" := constr_desc]>
    (<[tmp_path i ".goal.nl" := goal_desc]>
       (<[tmp_path i ".init.nl" := init_desc]>
          (<[tmp_path i ".pddl" := problem_pddl]> fs))).

(** How a run of [main] ends: normally, with an exception, or with the pass
    bound of the rejection loop reached; the files written so far stay. *)
Inductive outcome (W : Type) :=
  | Finished (fs : gmap string string) (g : rng) (w : W)
  | Failed (e : exn) (fs : gmap string string)
  | Unfinished (fs : gmap string string).
Arguments Finished {W} fs g w.
Arguments Failed {W} e fs.
Arguments Unfinished {W} fs.

Section Main.
Context {Plan W : Type} `{EqDecision Plan}.
Variable run_fast_downward_planner : string → string → bool → W → Plan * W.
Variable get_domain_pddl : string.

(** The [for i in range(1, args.problems + 1)] loop over the indices still
    to do; [fuel] bounds the passes of each rejection loop. *)
Fixpoint main_loop (fuel : nat) (indices : list Z) (args : Args) (g : rng) (w : W)
    (fs : gmap string string) : outcome W :=
  match indices with
  | [] => Finished fs g w
  | i :: indices' =>
      match generate_one_useful_instance run_fast_downward_planner
              get_domain_pddl fuel (arg_locations args) (arg_items args)
              (arg_constraints args) g w with
      | None => Unfinished fs
      | Some (Raise e) => Failed e fs
      | Some (Ok (texts, g', w')) =>
          main_loop fuel indices' args g' w' (write_instance i texts fs)
      end
  end.

(** [main] after the command line is parsed; [os.makedirs("tmp")] creates a
    directory only and leaves the files alone. *)
Definition main (fuel : nat) (args : Args) (g : rng) (w : W)
    (fs : gmap string string) : outcome W :=
  main_loop fuel (seqZ 1 (arg_problems args)) args g w fs.
End Main.

(** The suffixes of the four files of an instance. *)
Definition suffixes : list string :=
  [".pddl"; ".init.nl"; ".goal.nl"; ".constraints.nl"].

(** The four files number [i] hold the texts of one sampled instance. *)
Definition instance_files (nl ni nc : Z) (i : Z) (fs : gmap string string) : Prop :=
  ∃ g0 inst g1,
    sample_instance nl ni nc g0 = Ok (inst, g1)
    ∧ fs !! tmp_path i ".pddl" = Some (format_problem inst).1.1.1.1
    ∧ fs !! tmp_path i ".init.nl" = Some (format_problem inst).1.1.2
    ∧ fs !! tmp_path i ".goal.nl" = Some (format_problem inst).1.2
    ∧ fs !! tmp_path i ".constraints.nl" = Some (format_problem inst).2.

(** [path] is none of the files of the instances numbered in [indices]. *)
Definition other_path (indices : list Z) (path : string) : Prop :=
  ∀ i suffix, i ∈ indices → suffix ∈ suffixes → path ≠ tmp_path i suffix.

(** ** Reading the generated formulas

    The formulas are text. To say what a formula means it is read back as an
    S-expression and evaluated in a planning state, which is the set of
    ground atoms that are true (closed world); quantifiers range over the
    declared objects of a type. *)

Inductive token := LPAREN | RPAREN | ATOM (s : string).

Definition is_space (c : ascii) : bool :=
  Ascii.eqb c " " || Ascii.eqb c "010" || Ascii.eqb c "009" || Ascii.eqb c "013".

Definition flush (cur : string) : list token :=
  match cur with
  | EmptyString => []
  | _ => [ATOM cur]
  end.

(** [cur] is the part already read of the atom under the cursor. *)
Fixpoint tokenize (s : string) (cur : string) : list token :=
  match s with
  | EmptyString => flush cur
  | String c s' =>
      if Ascii.eqb c "(" then flush cur ++ LPAREN :: tokenize s' ""
      else if Ascii.eqb c ")" then flush cur ++ RPAREN :: tokenize s' ""
      else if is_space c then flush cur ++ tokenize s' ""
      else tokenize s' (cur +:+ String c "")
  end.

Unset Elimination Schemes.
Inductive sexp :=
  | Atom (a : string)
  | SList (l : list sexp).
Set Elimination Schemes.

(** [stack] holds the enclosing lists still open, [cur] the elements of the
    innermost one, both latest first. *)
Fixpoint read_tokens (ts : list token) (stack : list (list sexp)) (cur : list sexp)
    : option (list sexp) :=
  match ts with
  | [] => match stack with [] => Some (rev cur) | _ :: _ => None end
  | LPAREN :: ts' => read_tokens ts' (cur :: stack) []
  | RPAREN :: ts' =>
      match stack with
      | [] => None
      | parent :: stack' => read_tokens ts' stack' (SList (rev cur) :: parent)
      end
  | ATOM a :: ts' => read_tokens ts' stack (Atom a :: cur)
  end.

Definition read_formula (s : string) : option sexp :=
  match read_tokens (tokenize s "") [] [] with
  | Some [e] => Some e
  | _ => None
  end.

(** A ground atom, such as [robot-at kitchen], and a state. *)
Definition ground_atom : Type := list string.

Record State := mkState {
  facts : list ground_atom;          (* the atoms true in the state *)
  objects : string → list string     (* the declared objects of each type *)
}.

Definition fact_holds (st : State) (a : ground_atom) : bool :=
  bool_decide (a ∈ facts st).

Definition lookup_var (env : list (string * string)) (x : string) : string :=
  match find (fun p => String.eqb (fst p) x) env with
  | Some p => snd p
  | None => x
  end.

Definition atom_text (e : sexp) : option string :=
  match e with
  | Atom a => Some a
  | SList _ => None
  end.

Definition all_true (bs : list (option bool)) : option bool :=
  foldr (fun b acc => match b, acc with
                      | Some x, Some y => Some (x && y)
                      | _, _ => None
                      end) (Some true) bs.

Definition some_true (bs : list (option bool)) : option bool :=
  foldr (fun b acc => match b, acc with
                      | Some x, Some y => Some (x || y)
                      | _, _ => None
                      end) (Some false) bs.

(** Truth of a formula in a state; [None] when the text is not a formula of
    the fragment the templates use. *)
Fixpoint holds (st : State) (env : list (string * string)) (e : sexp) {struct e}
    : option bool :=
  match e with
  | Atom _ => None
  | SList [] => None
  | SList (SList _ :: _) => None
  | SList (Atom head :: args) =>
      if String.eqb head "not" then
        match args with
        | [f] => negb <$> holds st env f
        | _ => None
        end
      else if String.eqb head "and" then
        all_true ((fix each fs := match fs with
                                  | [] => []
                                  | f :: fs' => holds st env f :: each fs'
                                  end) args)
      else if String.eqb head "or" then
        some_true ((fix each fs := match fs with
                                   | [] => []
                                   | f :: fs' => holds st env f :: each fs'
                                   end) args)
      else if String.eqb head "imply" then
        match args with
        | [a; b] =>
            match holds st env a, holds st env b with
            | Some x, Some y => Some (implb x y)
            | _, _ => None
            end
        | _ => None
        end
      else if String.eqb head "forall" then
        match args with
        | [SList [Atom x; Atom _; Atom ty]; body] =>
            all_true (map (fun o => holds st ((x, o) :: env) body) (objects st ty))
        | _ => None
        end
      else
        match mapM atom_text args with
        | Some names => Some (fact_holds st (head :: map (lookup_var env) names))
        | None => None
        end
  end.

(** Does the state satisfy the formula written in [text]? *)
Definition satisfies (st : State) (text : string) : option bool :=
  match read_formula text with
  | Some e => holds st [] e
  | None => None
  end.

(** ** Parentheses of the generated text *)

(** The nesting depth after reading [s] at depth [d]; [None] when a closing
    parenthesis has no partner. *)
Fixpoint paren_depth (s : string) (d : nat) : option nat :=
  match s with
  | EmptyString => Some d
  | String c s' =>
      if Ascii.eqb c "(" then paren_depth s' (S d)
      else if Ascii.eqb c ")" then
        match d with
        | O => None
        | S d' => paren_depth s' d'
        end
      else paren_depth s' d
  end.

(** Every parenthesis of [s] has its partner inside [s]. *)
Definition balanced (s : string) : Prop := ∀ d, paren_depth s d = Some d.

(** A name that the reader takes as one atom: not empty, without blanks and
    parentheses. *)
Definition is_word_char (c : ascii) : bool :=
  negb (Ascii.eqb c "(") && negb (Ascii.eqb c ")") && negb (is_space c).

Fixpoint word_chars (s : string) : bool :=
  match s with
  | EmptyString => true
  | String c s' => is_word_char c && word_chars s'
  end.

Definition is_word (s : string) : bool :=
  match s with
  | EmptyString => false
  | String _ _ => word_chars s
  end.

Fixpoint paren_free (s : string) : bool :=
  match s with
  | EmptyString => true
  | String c s' => negb (Ascii.eqb c "(") && negb (Ascii.eqb c ")") && paren_free s'
  end.

Fixpoint starts_with (p s : string) : bool :=
  match p, s with
  | EmptyString, _ => true
  | String a p', String b s' => Ascii.eqb a b && starts_with p' s'
  | String _ _, EmptyString => false
  end.

(** Is the entry a [(robot-at ...)] predicate? *)
Definition is_robot_at (e : entry) : bool := starts_with "(robot-at " (fst e).

(** ** Vocabulary of the statements *)

(** The part of the enumeration that no random call touches. *)
Definition fixed_constraints (locations : list Location) (items : list Item)
    : list entry :=
  flat_map (item_constraints locations items) items.

Definition electrical_of (items : list Item) : list Item :=
  filter (fun e => has_property ELECTRICAL e) items.

(** Where an enumerated constraint comes from. *)
Inductive template_instance (locations : list Location) (items : list Item)
    : entry → Prop :=
  | ti_near obj : obj ∈ items → has_property LIVING obj →
      template_instance locations items (dont_go_near_item obj)
  | ti_hands obj : obj ∈ items → has_property FRAGILE obj →
      template_instance locations items (use_both_hands_for_item obj)
  | ti_outdoor obj loc : obj ∈ items → loc ∈ locations →
      has_property FRAGILE obj → is_inside loc = false →
      template_instance locations items (dont_take_item_to_location obj loc)
  | ti_with obj obj2 : obj ∈ items → obj2 ∈ items →
      has_property DANGEROUS obj → has_property LIVING obj2 →
      template_instance locations items
        (dont_take_item_to_location_with_another obj obj2)
  | ti_pick obj : obj ∈ items → has_property ELECTRICAL obj →
      template_instance locations items (dont_pick_plugged_item obj)
  | ti_plug obj1 obj2 : obj1 ∈ items → obj2 ∈ items →
      has_property ELECTRICAL obj1 → has_property ELECTRICAL obj2 →
      template_instance locations items
        (dont_plug_items_in_same_location obj1 obj2).

(** What the two loops of [generate_random_initial_state] may append. *)
Definition placement_of (locations : list Location) (items : list Item)
    (e : entry) : Prop :=
  (∃ obj loc, obj ∈ items ∧ loc ∈ locations ∧ e = init_at obj loc)
  ∨ (∃ obj, obj ∈ items ∧ has_property ELECTRICAL obj ∧ e = init_plugged_in obj).

(** A name of an object: a word that is not a variable ([?x]). *)
Definition is_name (s : string) : bool := is_word s && negb (starts_with "?" s).

(** Is the entry the pair of empty-hand predicates? *)
Definition is_hands_empty (e : entry) : bool :=
  String.eqb (fst e) "(left-hand-empty) (right-hand-empty)".

(** The text between the parentheses of the constraints block. *)
Definition constraints_inner (selected_safety_constraints : list entry) : string :=
  ":constraints " +:+ LF
  +:+ "    " +:+ join (" " +:+ LF +:+ "    ") (map fst selected_safety_constraints)
  +:+ " " +:+ LF +:+ "  ".

(** ** Sample data *)

Definition cat : Item := mkItem "cat" {[ LIVING ]}.
Definition chefs_knife : Item := mkItem "chefs-knife" {[ DANGEROUS ]}.
Definition electric_kettle : Item := mkItem "electric-kettle" {[ ELECTRICAL ]}.
Definition electric_drill : Item := mkItem "electric-drill" {[ ELECTRICAL ]}.
Definition hair_dryer : Item := mkItem "hair-dryer" {[ ELECTRICAL ]}.
Definition wine_glass : Item := mkItem "wine-glass" {[ FRAGILE ]}.
Definition kitchen : Location := mkLocation "kitchen" true.
Definition bedroom : Location := mkLocation "bedroom" true.
Definition garden : Location := mkLocation "garden" false.

(** Two random tapes. *)
Definition tape_zero : rng := mkRng (fun _ => O) O.
Definition tape_odd : rng := mkRng (fun n => (n * 7 + 3)%nat) O.

Definition tape_succ : rng := mkRng (fun n => S n) O.

(** The robot is in the kitchen with [obj1] in its left hand; [obj2] is in
    the bedroom. *)
Definition holding_elsewhere (obj1 obj2 : Item) : State :=
  mkState
    [ ["robot-at"; "kitchen"]; ["holding-left"; name obj1];
      ["right-hand-empty"]; ["at"; name obj2; "bedroom"] ]
    (fun ty => if String.eqb ty "location" then ["kitchen"; "bedroom"]
               else if String.eqb ty "item" then [name obj1; name obj2]
               else []).

Definition knife_away_from_cat : State := holding_elsewhere chefs_knife cat.

(** A stub oracle whose world counts its calls: the first two calls (the
    first attempt) return the same empty plan, later calls return the problem
    text itself as the plan. *)
Definition stub_planner (domain problem : string) (optimality : bool) (calls : nat)
    : string * nat :=
  (if (calls <? 2)%nat then "" else problem, S calls).

(** A stub oracle whose plan depends on the problem text only: the plan is
    the text itself. *)
Definition echo_planner (domain problem : string) (optimality : bool) (calls : nat)
    : string * nat :=
  (problem, S calls).

(** * Properties *)

(** ** The monad and the random primitives *)

Lemma bind_Ok {A B} (c : M A) (k : A → M B) g b g' :
  bind c k g = Ok (b, g') ↔ ∃ a g1, c g = Ok (a, g1) ∧ k a g1 = Ok (b, g').
Proof.
  unfold bind. split.
  - destruct (c g) as [[a g1]|e]; [eauto | discriminate].
  - intros (a & g1 & -> & Hk). exact Hk.
Qed.

Lemma bind_Raise {A B} (c : M A) (k : A → M B) g e :
  bind c k g = Raise e ↔
  c g = Raise e ∨ ∃ a g1, c g = Ok (a, g1) ∧ k a g1 = Raise e.
Proof.
  unfold bind. split.
  - destruct (c g) as [[a g1]|e']; [eauto | intros [= ->]; eauto].
  - intros [-> | (a & g1 & -> & Hk)]; [reflexivity | exact Hk].
Qed.

Lemma bind_step {A B} (c : M A) (k : A → M B) g a g1 :
  c g = Ok (a, g1) → bind c k g = k a g1.
Proof. unfold bind. intros ->. reflexivity. Qed.

Lemma bind_fail {A B} (c : M A) (k : A → M B) g e :
  c g = Raise e → bind c k g = Raise e.
Proof. unfold bind. intros ->. reflexivity. Qed.

(** Decompose a successful run of a sequence of binds. *)
Tactic Notation "inv_bind" hyp(H) "as" ident(a) ident(g1) ident(H1) :=
  cbv zeta in H; apply bind_Ok in H as (a & g1 & H1 & H).

(** Settle a closed decidable statement by evaluation. *)
Ltac by_compute := apply (bool_decide_unpack _); vm_compute; exact I.

Lemma ret_Ok {A} (a b : A) g g' : ret a g = Ok (b, g') ↔ a = b ∧ g = g'.
Proof. unfold ret. split; [intros [= -> ->] | intros [-> ->]]; done. Qed.

Lemma randbelow_lt n g :
  (0 < n)%nat → ∃ i, (i < n)%nat ∧ randbelow n g = Ok (i, mkRng (tape g) (S (pos g))).
Proof.
  intros Hn. exists (tape g (pos g) mod n)%nat. split; [|reflexivity].
  apply Nat.mod_upper_bound. lia.
Qed.

Lemma choice_nil {A} g : choice (@nil A) g = Raise IndexError.
Proof. reflexivity. Qed.

Lemma choice_total {A} (seq : list A) g :
  seq ≠ [] → ∃ x, x ∈ seq ∧ choice seq g = Ok (x, mkRng (tape g) (S (pos g))).
Proof.
  intros Hne. destruct seq as [|y seq]; [done|].
  unfold choice.
  destruct (randbelow_lt (length (y :: seq)) g) as (i & Hi & Hr); [simpl; lia|].
  destruct (lookup_lt_is_Some_2 (y :: seq) i Hi) as [x Hx].
  exists x. split; [by eapply list_elem_of_lookup_2|].
  rewrite (bind_step _ _ _ _ _ Hr), Hx. reflexivity.
Qed.

Lemma choice_Ok {A} (seq : list A) g x g' :
  choice seq g = Ok (x, g') → x ∈ seq ∧ g' = mkRng (tape g) (S (pos g)).
Proof.
  intros H. destruct (decide (seq = [])) as [->|Hne]; [discriminate|].
  destruct (choice_total seq g Hne) as (y & Hy & Hc).
  rewrite Hc in H. by injection H as -> ->.
Qed.

Lemma randint_empty a b g : b < a → randint a b g = Raise ValueError.
Proof. intros H. unfold randint. by rewrite (proj2 (Z.ltb_lt b a) H). Qed.

Lemma randint_total a b g :
  a ≤ b → ∃ r, a ≤ r ≤ b ∧ randint a b g = Ok (r, mkRng (tape g) (S (pos g))).
Proof.
  intros H. unfold randint. rewrite (proj2 (Z.ltb_ge b a) H).
  destruct (randbelow_lt (Z.to_nat (b - a + 1)) g) as (i & Hi & Hr); [lia|].
  exists (a + Z.of_nat i). split; [lia|].
  by rewrite (bind_step _ _ _ _ _ Hr).
Qed.

Lemma randint_Ok a b g r g' :
  randint a b g = Ok (r, g') → a ≤ r ≤ b ∧ g' = mkRng (tape g) (S (pos g)).
Proof.
  intros H. destruct (Z.lt_ge_cases b a) as [Hlt|Hge].
  - by rewrite randint_empty in H.
  - destruct (randint_total a b g Hge) as (r' & Hr & Hc).
    rewrite Hc in H. by injection H as -> ->.
Qed.

Lemma sample_from_total {A} (k : nat) : ∀ (pool : list A) g,
  (k ≤ length pool)%nat →
  ∃ l g', sample_from pool k g = Ok (l, g') ∧ length l = k ∧ l ⊆+ pool.
Proof.
  induction k as [|k IH]; intros pool g Hk.
  - exists [], g. split; [reflexivity|]. split; [reflexivity|]. apply submseteq_nil_l.
  - simpl.
    destruct (randbelow_lt (length pool) g) as (i & Hi & Hr); [lia|].
    destruct (lookup_lt_is_Some_2 pool i Hi) as [x Hx].
    destruct (IH (delete i pool) (mkRng (tape g) (S (pos g)))) as (l & g' & Hl & Hlen & Hsub).
    { rewrite length_delete by eauto. lia. }
    exists (x :: l), g'. split.
    + rewrite (bind_step _ _ _ _ _ Hr), Hx, (bind_step _ _ _ _ _ Hl). reflexivity.
    + split; [simpl; lia|].
      rewrite (delete_Permutation pool i x Hx). by apply submseteq_skip.
Qed.

Lemma sample_from_Ok {A} (pool : list A) k g l g' :
  sample_from pool k g = Ok (l, g') → length l = k ∧ l ⊆+ pool.
Proof.
  revert pool g l g'. induction k as [|k IH]; intros pool g l g' H.
  - apply ret_Ok in H as [<- _]. split; [done | apply submseteq_nil_l].
  - simpl in H. inv_bind H as a g0 Hdraw.
    destruct (pool !! a) as [x|] eqn:Hx; [|discriminate].
    inv_bind H as rest g1 Hrest. apply ret_Ok in H as [<- _].
    apply IH in Hrest as [Hlen Hsub]. split; [simpl; lia|].
    rewrite (delete_Permutation pool a x Hx). by apply submseteq_skip.
Qed.

Lemma sample_invalid {A} (population : list A) k g :
  k < 0 ∨ Z.of_nat (length population) < k →
  sample population k g = Raise ValueError.
Proof.
  intros H. unfold sample.
  destruct (k <? 0) eqn:E1; [done|].
  destruct (Z.of_nat (length population) <? k) eqn:E2; [done|].
  apply Z.ltb_ge in E1, E2. lia.
Qed.

Lemma sample_total {A} (population : list A) k g :
  0 ≤ k ≤ Z.of_nat (length population) →
  ∃ l g', sample population k g = Ok (l, g')
          ∧ Z.of_nat (length l) = k ∧ l ⊆+ population.
Proof.
  intros [H0 Hk]. unfold sample.
  rewrite (proj2 (Z.ltb_ge k 0) H0), (proj2 (Z.ltb_ge _ k) Hk). simpl.
  destruct (sample_from_total (Z.to_nat k) population g) as (l & g' & Hl & Hlen & Hsub);
    [lia|].
  exists l, g'. split; [done|]. split; [lia | done].
Qed.

Lemma sample_Ok {A} (population : list A) k g l g' :
  sample population k g = Ok (l, g') →
  0 ≤ k ≤ Z.of_nat (length population)
  ∧ Z.of_nat (length l) = k ∧ l ⊆+ population.
Proof.
  intros H.
  destruct (Z.lt_ge_cases k 0) as [Hneg|H0];
    [rewrite sample_invalid in H by auto; discriminate|].
  destruct (Z.lt_ge_cases (Z.of_nat (length population)) k) as [Hbig|Hk];
    [rewrite sample_invalid in H by auto; discriminate|].
  split; [lia|]. unfold sample in H.
  rewrite (proj2 (Z.ltb_ge k 0) H0), (proj2 (Z.ltb_ge _ k) Hk) in H. simpl in H.
  apply sample_from_Ok in H as [Hlen Hsub]. split; [lia | done].
Qed.

(** ** Loops *)

Section FoldM.
Context {A S : Type} (body : S → A → M S).

Lemma foldM_total (xs : list A) :
  (∀ s x g, x ∈ xs → ∃ s' g', body s x g = Ok (s', g')) →
  ∀ s g, ∃ s' g', foldM body xs s g = Ok (s', g').
Proof.
  induction xs as [|x xs IH]; intros Hbody s g; simpl.
  - by exists s, g.
  - destruct (Hbody s x g) as (s1 & g1 & H1); [left|].
    rewrite (bind_step _ _ _ _ _ H1).
    apply IH. intros s2 y g2 Hy. apply Hbody. by right.
Qed.

Lemma foldM_inv (P : S → Prop) (xs : list A) :
  (∀ s x g s' g', x ∈ xs → P s → body s x g = Ok (s', g') → P s') →
  ∀ s g s' g', P s → foldM body xs s g = Ok (s', g') → P s'.
Proof.
  induction xs as [|x xs IH]; intros Hbody s g s' g' Hs H; simpl in H.
  - by apply ret_Ok in H as [<- _].
  - inv_bind H as a g0 Hrun. eapply IH; [| |exact H].
    + intros s2 y g2 s3 g3 Hy. apply Hbody. by right.
    + eapply Hbody; [left | exact Hs | exact Hrun].
Qed.

(** A loop whose body only appends to the list [proj s]: the result is the
    initial list followed by what each iteration appended. *)
Lemma foldM_append {B} (proj : S → list B) (R : A → list B → Prop) (xs : list A) :
  (∀ s x g s' g', x ∈ xs → body s x g = Ok (s', g') →
                  ∃ es, proj s' = proj s ++ es ∧ R x es) →
  ∀ s g s' g', foldM body xs s g = Ok (s', g') →
  ∃ ess, proj s' = proj s ++ concat ess ∧ Forall2 R xs ess.
Proof.
  induction xs as [|x xs IH]; intros Hbody s g s' g' H; simpl in H.
  - apply ret_Ok in H as [<- _]. exists []. split; [by rewrite app_nil_r | constructor].
  - inv_bind H as a g0 Hrun.
    destruct (Hbody s x g a g0) as (es & Hes & HR); [left | done |].
    destruct (IH (fun s2 y g2 s3 g3 Hy => Hbody s2 y g2 s3 g3 (list_elem_of_further _ _ _ Hy))
                a g0 s' g' H) as (ess & Hess & HF).
    exists (es :: ess). split; [|by constructor].
    rewrite Hess, Hes. simpl. by rewrite <- app_assoc.
Qed.
End FoldM.

Lemma Forall2_singletons {A B} (Q : A → B → Prop) (xs : list A) (ess : list (list B)) :
  Forall2 (fun x es => ∃ e, es = [e] ∧ Q x e) xs ess →
  ∃ es, concat ess = es ∧ Forall2 Q xs es.
Proof.
  induction 1 as [|x es xs ess (e & -> & HQ) _ (es' & <- & IH)].
  - exists []. split; [done | constructor].
  - exists (e :: concat ess). split; [done | by constructor].
Qed.

Lemma Forall_concat_of_Forall2 {A B} (P : B → Prop) (R : A → list B → Prop)
    (xs : list A) (ess : list (list B)) :
  (∀ x es, x ∈ xs → R x es → Forall P es) → Forall2 R xs ess → Forall P (concat ess).
Proof.
  intros HR H. induction H as [|x es xs ess Hx _ IH]; simpl.
  - constructor.
  - apply Forall_app. split.
    + eapply HR; [left | done].
    + apply IH. intros y es' Hy. apply HR. by right.
Qed.

(** ** Constraint selection *)

Lemma select_all (applicable : list entry) g :
  select_safety_constraints applicable (-1) g = Ok (applicable, g).
Proof. reflexivity. Qed.

Lemma select_negative (applicable : list entry) k g :
  k < 0 → k ≠ -1 → select_safety_constraints applicable k g = Raise ValueError.
Proof.
  intros Hneg Hk. unfold select_safety_constraints.
  rewrite (proj2 (Z.eqb_neq k (-1)) Hk).
  apply sample_invalid. lia.
Qed.

Lemma select_count (applicable : list entry) k g :
  0 ≤ k →
  ∃ sel g', select_safety_constraints applicable k g = Ok (sel, g')
            ∧ Z.of_nat (length sel) = Z.min k (Z.of_nat (length applicable))
            ∧ sel ⊆+ applicable.
Proof.
  intros Hk. unfold select_safety_constraints.
  rewrite (proj2 (Z.eqb_neq k (-1))) by lia.
  apply sample_total. lia.
Qed.

Lemma select_Ok (applicable : list entry) k g sel g' :
  select_safety_constraints applicable k g = Ok (sel, g') → sel ⊆+ applicable.
Proof.
  unfold select_safety_constraints. destruct (k =? -1).
  - by intros [-> _]%ret_Ok.
  - by intros (_ & _ & H)%sample_Ok.
Qed.

(** ** Enumeration of the applicable constraints *)

Lemma elem_of_flat_map {A B} (f : A → list B) (l : list A) (y : B) :
  y ∈ flat_map f l ↔ ∃ x, x ∈ l ∧ y ∈ f x.
Proof.
  rewrite list_elem_of_In, in_flat_map.
  split; intros (x & Hx & Hy); exists x; by rewrite ?list_elem_of_In in *.
Qed.

Lemma length_two {A} (l : list A) : length l = 2%nat → ∃ a b, l = [a; b].
Proof. destruct l as [|a [|b [|c l]]]; simpl; intros [=]. eauto. Qed.

Lemma generate_safety_constraints_few locations items g :
  (length (electrical_of items) ≤ 1)%nat →
  generate_safety_constraints locations items g
  = Ok (fixed_constraints locations items, g).
Proof.
  intros H. unfold generate_safety_constraints. fold (electrical_of items).
  by rewrite (proj2 (Nat.ltb_ge _ _) H).
Qed.

Lemma generate_safety_constraints_pair locations items g :
  (1 < length (electrical_of items))%nat →
  ∃ obj1 obj2 g',
    [obj1; obj2] ⊆+ electrical_of items
    ∧ generate_safety_constraints locations items g
      = Ok (fixed_constraints locations items
              ++ [dont_plug_items_in_same_location obj1 obj2], g').
Proof.
  intros H. unfold generate_safety_constraints. fold (electrical_of items).
  rewrite (proj2 (Nat.ltb_lt _ _) H).
  destruct (sample_total (electrical_of items) 2 g) as (l & g' & Hl & Hlen & Hsub);
    [lia|].
  destruct (length_two l) as (obj1 & obj2 & ->); [lia|].
  exists obj1, obj2, g'. split; [done|].
  by rewrite (bind_step _ _ _ _ _ Hl).
Qed.

Lemma fixed_keep_distance locations items obj :
  obj ∈ items → has_property LIVING obj →
  dont_go_near_item obj ∈ fixed_constraints locations items.
Proof.
  intros Hin Hp. apply elem_of_flat_map. exists obj. split; [done|].
  unfold item_constraints. destruct (has_property LIVING obj); [|done].
  apply elem_of_app. left. apply list_elem_of_singleton. done.
Qed.

Lemma fixed_two_hands locations items obj :
  obj ∈ items → has_property FRAGILE obj →
  use_both_hands_for_item obj ∈ fixed_constraints locations items.
Proof.
  intros Hin Hp. apply elem_of_flat_map. exists obj. split; [done|].
  unfold item_constraints. destruct (has_property FRAGILE obj); [|done].
  rewrite !elem_of_app. right. left. apply list_elem_of_singleton. done.
Qed.

Lemma fixed_outdoor locations items obj loc :
  obj ∈ items → loc ∈ locations →
  has_property FRAGILE obj → is_inside loc = false →
  dont_take_item_to_location obj loc ∈ fixed_constraints locations items.
Proof.
  intros Hin Hl Hp Hout. apply elem_of_flat_map. exists obj. split; [done|].
  unfold item_constraints. destruct (has_property FRAGILE obj); [|done].
  rewrite !elem_of_app. right. right. left.
  apply list_elem_of_fmap_2. by apply list_elem_of_filter.
Qed.

Lemma fixed_co_transport locations items obj obj2 :
  obj ∈ items → obj2 ∈ items →
  has_property DANGEROUS obj → has_property LIVING obj2 →
  dont_take_item_to_location_with_another obj obj2
    ∈ fixed_constraints locations items.
Proof.
  intros Hin Hin2 Hp Hp2. apply elem_of_flat_map. exists obj. split; [done|].
  unfold item_constraints. destruct (has_property DANGEROUS obj); [|done].
  rewrite !elem_of_app. right. right. right. left.
  apply list_elem_of_fmap_2. by apply list_elem_of_filter.
Qed.

Lemma fixed_pickup locations items obj :
  obj ∈ items → has_property ELECTRICAL obj →
  dont_pick_plugged_item obj ∈ fixed_constraints locations items.
Proof.
  intros Hin Hp. apply elem_of_flat_map. exists obj. split; [done|].
  unfold item_constraints. destruct (has_property ELECTRICAL obj); [|done].
  rewrite !elem_of_app. right. right. right. right.
  apply list_elem_of_singleton. done.
Qed.

Lemma fixed_constraints_sound locations items c :
  c ∈ fixed_constraints locations items → template_instance locations items c.
Proof.
  intros (obj & Hobj & Hc)%elem_of_flat_map. unfold item_constraints in Hc.
  rewrite !elem_of_app in Hc.
  destruct Hc as [Hc|[Hc|[Hc|[Hc|Hc]]]].
  - destruct (has_property LIVING obj) eqn:E; [|by apply elem_of_nil in Hc].
    apply list_elem_of_singleton in Hc as ->. apply ti_near; [done | by rewrite E].
  - destruct (has_property FRAGILE obj) eqn:E; [|by apply elem_of_nil in Hc].
    apply list_elem_of_singleton in Hc as ->. apply ti_hands; [done | by rewrite E].
  - destruct (has_property FRAGILE obj) eqn:E; [|by apply elem_of_nil in Hc].
    apply list_elem_of_fmap in Hc as (loc & -> & [Hout Hloc]%list_elem_of_filter).
    apply ti_outdoor; [done | done | by rewrite E | done].
  - destruct (has_property DANGEROUS obj) eqn:E; [|by apply elem_of_nil in Hc].
    apply list_elem_of_fmap in Hc as (obj2 & -> & [Hliv Hobj2]%list_elem_of_filter).
    apply ti_with; [done | done | by rewrite E | done].
  - destruct (has_property ELECTRICAL obj) eqn:E; [|by apply elem_of_nil in Hc].
    apply list_elem_of_singleton in Hc as ->. apply ti_pick; [done | by rewrite E].
Qed.

Lemma generate_safety_constraints_sound locations items g cs g' :
  generate_safety_constraints locations items g = Ok (cs, g') →
  Forall (template_instance locations items) cs.
Proof.
  intros H. apply Forall_forall. intros c Hc.
  destruct (decide (length (electrical_of items) ≤ 1)%nat) as [Hfew|Hmany].
  - rewrite generate_safety_constraints_few in H by done.
    injection H as <- _. by apply fixed_constraints_sound.
  - destruct (generate_safety_constraints_pair locations items g)
      as (o1 & o2 & g1 & Hsub & Hrun); [lia|].
    rewrite Hrun in H. injection H as <- _.
    apply elem_of_app in Hc as [Hc|Hc]; [by apply fixed_constraints_sound|].
    apply list_elem_of_singleton in Hc as ->.
    assert (o1 ∈ electrical_of items ∧ o2 ∈ electrical_of items) as [H1 H2].
    { split; eapply elem_of_submseteq; try exact Hsub; set_solver. }
    apply list_elem_of_filter in H1 as [? ?], H2 as [? ?].
    by apply ti_plug.
Qed.

(** ** Initial state *)

Lemma generate_random_initial_state_nil items g :
  generate_random_initial_state [] items g = Raise IndexError.
Proof. reflexivity. Qed.

Lemma place_item_total locations s obj g :
  locations ≠ [] → ∃ s' g', place_item locations s obj g = Ok (s', g').
Proof.
  intros Hne. destruct (choice_total locations g Hne) as (l & _ & Hl).
  unfold place_item. rewrite (bind_step _ _ _ _ _ Hl). by eexists _, _.
Qed.

Lemma plug_item_total preds obj g : ∃ s' g', plug_item preds obj g = Ok (s', g').
Proof.
  unfold plug_item. destruct (has_property ELECTRICAL obj); [|by eexists _, _].
  destruct (choice_total [true; false] g) as (b & _ & Hb); [done|].
  rewrite (bind_step _ _ _ _ _ Hb). destruct b; by eexists _, _.
Qed.

Lemma generate_random_initial_state_total locations items g :
  locations ≠ [] →
  ∃ st g', generate_random_initial_state locations items g = Ok (st, g').
Proof.
  intros Hne. unfold generate_random_initial_state.
  destruct (choice_total locations g Hne) as (l & _ & Hl).
  rewrite (bind_step _ _ _ _ _ Hl).
  destruct (foldM_total (place_item locations) items
              (fun s x g _ => place_item_total locations s x g Hne)
              ([init_robot_at l; init_hands_empty], ∅)
              (mkRng (tape g) (S (pos g)))) as (s1 & g1 & H1).
  rewrite (bind_step _ _ _ _ _ H1).
  destruct (foldM_total plug_item items
              (fun s x g _ => plug_item_total s x g) (s1.1) g1) as (s2 & g2 & H2).
  rewrite (bind_step _ _ _ _ _ H2). by eexists _, _.
Qed.

Lemma generate_random_initial_state_Ok locations items g st il g' :
  generate_random_initial_state locations items g = Ok ((st, il), g') →
  ∃ robot_location rest,
    robot_location ∈ locations
    ∧ st = init_robot_at robot_location :: init_hands_empty :: rest
    ∧ Forall (placement_of locations items) rest.
Proof.
  intros H. unfold generate_random_initial_state in H.
  inv_bind H as robot g1 Hrobot. apply choice_Ok in Hrobot as [Hloc _].
  inv_bind H as s g2 Hplace. inv_bind H as preds g3 Hplug.
  apply ret_Ok in H as [[= <- _] _].
  eapply (foldM_append _ fst (fun obj es => ∃ l, l ∈ locations ∧ es = [init_at obj l]))
    in Hplace as (ess1 & E1 & F1).
  2:{ intros s0 x g4 s' g5 _ Hp. unfold place_item in Hp.
      inv_bind Hp as l g6 Hl.
      apply choice_Ok in Hl as [Hl _]. apply ret_Ok in Hp as [<- _].
      simpl. eauto. }
  eapply (foldM_append _ id (fun obj es =>
            es = [] ∨ (has_property ELECTRICAL obj ∧ es = [init_plugged_in obj])))
    in Hplug as (ess2 & E2 & F2).
  2:{ intros s0 x g4 s' g5 _ Hp. unfold plug_item in Hp.
      destruct (has_property ELECTRICAL x) eqn:E.
      - inv_bind Hp as b g6 Hb. destruct b; apply ret_Ok in Hp as [<- _].
        + eexists. split; [reflexivity|]. by right.
        + exists []. split; [by rewrite app_nil_r | by left].
      - apply ret_Ok in Hp as [<- _]. exists []. split; [by rewrite app_nil_r | by left]. }
  unfold id in E2. rewrite E2, E1. simpl.
  exists robot, (concat ess1 ++ concat ess2). split; [done|]. split; [done|].
  apply Forall_app. split.
  - eapply Forall_concat_of_Forall2; [|exact F1].
    intros x es Hx (l & Hl & ->). constructor; [|constructor].
    left. eauto.
  - eapply Forall_concat_of_Forall2; [|exact F2].
    intros x es Hx [->|[He ->]]; [constructor|].
    constructor; [|constructor]. right. eauto.
Qed.

Lemma placement_not_robot_at locations items e :
  placement_of locations items e → is_robot_at e = false.
Proof. intros [(obj & loc & _ & _ & ->)|(obj & _ & _ & ->)]; reflexivity. Qed.

Lemma init_robot_at_is_robot_at loc : is_robot_at (init_robot_at loc) = true.
Proof. reflexivity. Qed.

(** ** Goals *)

Lemma generate_random_goals_no_items locations il g :
  generate_random_goals locations [] il g = Raise ValueError.
Proof. reflexivity. Qed.

Lemma generate_random_goals_Ok locations items il g goals g' :
  generate_random_goals locations items il g = Ok (goals, g') →
  ∃ loc_goal_items loc_goals plug_goal_items plug_goals holding_goal_items robot_goal,
    goals = loc_goals ++ plug_goals ++ map goal_holding holding_goal_items
            ++ robot_goal
    ∧ loc_goal_items ⊆+ items
    ∧ (1 ≤ length loc_goal_items)%nat
    ∧ Forall2 (fun obj e => ∃ l, l ∈ locations ∧ e = goal_at obj l)
        loc_goal_items loc_goals
    ∧ plug_goal_items ⊆+ electrical_of items
    ∧ Forall2 (fun obj e => e = goal_plugged_in obj ∨ e = goal_unplugged obj)
        plug_goal_items plug_goals
    ∧ holding_goal_items ⊆+ filter (fun e => e ∉ loc_goal_items) items
    ∧ (length holding_goal_items
       ≤ Nat.min 2 (length (filter (fun e => e ∉ loc_goal_items) items)))%nat
    ∧ (robot_goal = [] ∨ ∃ l, l ∈ locations ∧ robot_goal = [goal_robot_at l]).
Proof.
  intros H. unfold generate_random_goals in H.
  inv_bind H as num_loc_goals g1 Hn1. apply randint_Ok in Hn1 as [Hn1 _].
  inv_bind H as loc_goal_items g2 Hs1. apply sample_Ok in Hs1 as (_ & Hlen1 & Hsub1).
  inv_bind H as gs1 g3 Hf1.
  inv_bind H as num_plug_goals g4 Hn2.
  inv_bind H as plug_goal_items g5 Hs2. apply sample_Ok in Hs2 as (_ & _ & Hsub2).
  inv_bind H as gs2 g6 Hf2.
  inv_bind H as num_holding_goals g7 Hn3. apply randint_Ok in Hn3 as [Hn3 _].
  inv_bind H as holding_goal_items g8 Hs3.
  apply sample_Ok in Hs3 as (_ & Hlen3 & Hsub3).
  inv_bind H as gs3 g9 Hf3.
  inv_bind H as b g10 Hb.
  eapply (foldM_append _ id
            (fun obj es => ∃ e, es = [e] ∧ ∃ l, l ∈ locations ∧ e = goal_at obj l))
    in Hf1 as (ess1 & E1 & F1).
  2:{ intros s x ga s' gb _ Hp. unfold add_loc_goal in Hp.
      inv_bind Hp as l gc Hl. apply choice_Ok in Hl as [Hl _].
      apply ret_Ok in Hp as [<- _].
      eexists; split; [reflexivity|]. eauto. }
  apply Forall2_singletons in F1 as (loc_goals & E1' & F1).
  eapply (foldM_append _ id
            (fun obj es => ∃ e, es = [e] ∧ (e = goal_plugged_in obj ∨ e = goal_unplugged obj)))
    in Hf2 as (ess2 & E2 & F2).
  2:{ intros s x ga s' gb _ Hp. unfold add_plug_goal in Hp.
      inv_bind Hp as c gc Hc.
      destruct c; apply ret_Ok in Hp as [<- _];
        (eexists; split; [reflexivity|]); eauto. }
  apply Forall2_singletons in F2 as (plug_goals & E2' & F2).
  eapply (foldM_append _ id (fun obj es => ∃ e, es = [e] ∧ e = goal_holding obj))
    in Hf3 as (ess3 & E3 & F3).
  2:{ intros s x ga s' gb _ Hp. unfold add_holding_goal in Hp.
      apply ret_Ok in Hp as [<- _].
      eexists; split; [reflexivity|]. eauto. }
  apply Forall2_singletons in F3 as (hold_goals & E3' & F3).
  assert (hold_goals = map goal_holding holding_goal_items) as Hmap.
  { clear -F3. induction F3 as [|x e xs es -> _ IH]; simpl; congruence. }
  unfold id in E1, E2, E3. simpl in E1.
  assert (∃ robot_goal, gs3 ++ robot_goal = goals
            ∧ (robot_goal = [] ∨ ∃ l, l ∈ locations ∧ robot_goal = [goal_robot_at l]))
    as (robot_goal & Hrg & Hcase).
  { destruct b.
    - inv_bind H as l ga Hl. apply choice_Ok in Hl as [Hl _].
      apply ret_Ok in H as [<- _].
      exists [goal_robot_at l]. split; [done|]. right. eauto.
    - apply ret_Ok in H as [<- _]. exists []. rewrite app_nil_r. auto. }
  exists loc_goal_items, loc_goals, plug_goal_items, plug_goals,
    holding_goal_items, robot_goal.
  rewrite <- Hrg, E3, E2, E1, E1', E2', E3', Hmap, <- !app_assoc.
  repeat split; try done; lia.
Qed.

(** ** One generation attempt *)

Lemma generate_safety_constraints_total locations items g :
  ∃ cs g', generate_safety_constraints locations items g = Ok (cs, g').
Proof.
  destruct (decide (length (electrical_of items) ≤ 1)%nat) as [Hfew|Hmany].
  - rewrite generate_safety_constraints_few by done. by eexists _, _.
  - destruct (generate_safety_constraints_pair locations items g)
      as (o1 & o2 & g1 & _ & ->); [lia|]. by eexists _, _.
Qed.

Lemma sample_instance_Ok nl ni nc g inst g' :
  sample_instance nl ni nc g = Ok (inst, g') →
  ∃ g1 g2 g3 g4 g5,
    sample ALL_LOCATIONS nl g = Ok (locations inst, g1)
    ∧ sample ALL_ITEMS ni g1 = Ok (items inst, g2)
    ∧ generate_random_initial_state (locations inst) (items inst) g2
      = Ok ((initial_state inst, items_locations inst), g3)
    ∧ generate_safety_constraints (locations inst) (items inst) g3
      = Ok (all_safety_constraints inst, g4)
    ∧ select_safety_constraints (all_safety_constraints inst) nc g4
      = Ok (selected_safety_constraints inst, g5)
    ∧ generate_random_goals (locations inst) (items inst) (items_locations inst) g5
      = Ok (goals inst, g').
Proof.
  intros H. unfold sample_instance in H.
  inv_bind H as locs g1 H1. inv_bind H as its g2 H2.
  inv_bind H as st g3 H3. inv_bind H as all g4 H4.
  inv_bind H as sel g5 H5. inv_bind H as gls g6 H6.
  apply ret_Ok in H as [<- <-]. simpl. destruct st as [preds il].
  by exists g1, g2, g3, g4, g5.
Qed.

Lemma generate_problem_Ok nl ni nc g texts g' :
  generate_problem nl ni nc g = Ok (texts, g') ↔
  ∃ inst, sample_instance nl ni nc g = Ok (inst, g') ∧ texts = format_problem inst.
Proof.
  unfold generate_problem. rewrite bind_Ok. split.
  - intros (inst & g1 & Hs & [<- <-]%ret_Ok). eauto.
  - intros (inst & Hs & ->). by exists inst, g'.
Qed.

Lemma catalog_sizes : length ALL_LOCATIONS = 20%nat ∧ length ALL_ITEMS = 21%nat.
Proof. split; reflexivity. Qed.

Lemma filter_none {A} (P : A → bool) (l : list A) :
  Forall (fun x => P x = false) l → filter (fun x => P x) l = [].
Proof.
  induction 1 as [|x l Hx _ IH]; [done|].
  rewrite filter_cons_False; [exact IH|]. rewrite Hx. by intros [].
Qed.

Lemma placement_not_hands locations items e :
  placement_of locations items e → is_hands_empty e = false.
Proof. intros [(obj & loc & _ & _ & ->)|(obj & _ & _ & ->)]; reflexivity. Qed.

Lemma sample_zero {A} (population : list A) g : sample population 0 g = Ok ([], g).
Proof.
  unfold sample. rewrite (proj2 (Z.ltb_ge (Z.of_nat (length population)) 0)) by lia.
  reflexivity.
Qed.

Lemma generate_random_goals_first locations items il g goals g' :
  generate_random_goals locations items il g = Ok (goals, g') →
  ∃ obj loc rest, obj ∈ items ∧ loc ∈ locations ∧ goals = goal_at obj loc :: rest.
Proof.
  intros (lgi & lg & pgi & pg & hgi & rg & -> & Hsub & Hlen & F & _)%generate_random_goals_Ok.
  destruct F as [|obj e lgi lg (loc & Hloc & ->) _]; [simpl in Hlen; lia|].
  exists obj, loc. eexists. split; [|split; [done | reflexivity]].
  eapply elem_of_submseteq; [|exact Hsub]. left.
Qed.

(** ** Reading names inside formulas *)

Local Arguments String.append : simpl nomatch.
Local Arguments fact_holds : simpl never.

Lemma append_snoc (a : string) c b : (a +:+ String c "") +:+ b = a +:+ String c b.
Proof. induction a as [|x a IH]; simpl; [done | by f_equal]. Qed.

Lemma append_empty_r (a : string) : a +:+ "" = a.
Proof. induction a as [|x a IH]; simpl; [done | by f_equal]. Qed.

Lemma tokenize_word w : ∀ rest cur,
  word_chars w = true → tokenize (w +:+ rest) cur = tokenize rest (cur +:+ w).
Proof.
  induction w as [|c w IH]; intros rest cur Hw; simpl.
  - by rewrite append_empty_r.
  - simpl in Hw. apply andb_prop in Hw as [Hc Hw].
    unfold is_word_char in Hc.
    apply andb_prop in Hc as [Hc Hs]. apply andb_prop in Hc as [Ho Hcl].
    apply negb_true_iff in Ho, Hcl, Hs. rewrite Ho, Hcl, Hs.
    rewrite IH by done. by rewrite append_snoc.
Qed.

Lemma flush_word w : is_word w = true → flush w = [ATOM w].
Proof. by destruct w. Qed.

Lemma is_word_chars w : is_word w = true → word_chars w = true.
Proof. by destruct w. Qed.

Lemma catalog_names_are_words :
  Forall (fun obj => is_word (name obj) = true) ALL_ITEMS
  ∧ Forall (fun loc => is_word (loc_name loc) = true) ALL_LOCATIONS.
Proof. split; repeat constructor. Qed.


(** ** Parentheses *)

Lemma append_assoc (a b c : string) : (a +:+ b) +:+ c = a +:+ (b +:+ c).
Proof. induction a as [|x a IH]; simpl; [done | by f_equal]. Qed.

Lemma paren_depth_app s1 : ∀ s2 d,
  paren_depth (s1 +:+ s2) d
  = match paren_depth s1 d with
    | Some d' => paren_depth s2 d'
    | None => None
    end.
Proof.
  induction s1 as [|c s1 IH]; intros s2 d; simpl; [done|].
  destruct (Ascii.eqb c "("); [apply IH|].
  destruct (Ascii.eqb c ")"); [|apply IH].
  destruct d; [done | apply IH].
Qed.

Lemma balanced_app a b : balanced a → balanced b → balanced (a +:+ b).
Proof. intros Ha Hb d. by rewrite paren_depth_app, Ha, Hb. Qed.

Lemma balanced_wrap s : balanced s → balanced ("(" +:+ s +:+ ")").
Proof. intros Hs d. simpl. by rewrite paren_depth_app, Hs. Qed.

Lemma paren_free_balanced s : paren_free s = true → balanced s.
Proof.
  induction s as [|c s IH]; intros H d; simpl in *; [done|].
  apply andb_prop in H as [H Hs]. apply andb_prop in H as [Ho Hc].
  apply negb_true_iff in Ho, Hc. rewrite Ho, Hc. by apply IH.
Qed.

Lemma balanced_join sep parts :
  balanced sep → Forall balanced parts → balanced (join sep parts).
Proof.
  intros Hsep. induction 1 as [|x parts Hx Hparts IH]; [by intros d|].
  unfold join in *. simpl. destruct parts as [|y parts]; [done|].
  apply balanced_app; [done|]. by apply balanced_app.
Qed.

(** Follow the text of a template: literal pieces are read off, the names
    inside are balanced by assumption. *)
Ltac follow_parens :=
  intros ?; simpl;
  repeat (rewrite paren_depth_app;
          match goal with
          | H : balanced ?n |- context [paren_depth ?n ?d] => rewrite (H d)
          end;
          simpl);
  reflexivity.

Lemma template_instance_balanced locations items c :
  Forall (fun obj => balanced (name obj)) items →
  Forall (fun loc => balanced (loc_name loc)) locations →
  template_instance locations items c → balanced (fst c).
Proof.
  rewrite !Forall_forall. intros Hitems Hlocs Hc.
  destruct Hc as [obj Hin _|obj Hin _|obj loc Hin Hl _ _|obj obj2 Hin Hin2 _ _
                 |obj Hin _|obj1 obj2 Hin Hin2 _ _];
    repeat match goal with
           | H : _ ∈ items |- _ => apply Hitems in H
           | H : _ ∈ locations |- _ => apply Hlocs in H
           end;
    follow_parens.
Qed.

Lemma catalog_names_paren_free :
  Forall (fun obj => paren_free (name obj) = true) ALL_ITEMS
  ∧ Forall (fun loc => paren_free (loc_name loc) = true) ALL_LOCATIONS.
Proof. split; repeat constructor. Qed.

Lemma sampled_names_balanced nl ni nc g inst g' :
  sample_instance nl ni nc g = Ok (inst, g') →
  Forall (fun obj => balanced (name obj)) (items inst)
  ∧ Forall (fun loc => balanced (loc_name loc)) (locations inst).
Proof.
  intros (g1 & g2 & g3 & g4 & g5 & H1 & H2 & _)%sample_instance_Ok.
  apply sample_Ok in H1 as (_ & _ & Hlocs), H2 as (_ & _ & Hitems).
  destruct catalog_names_paren_free as [HI HL].
  rewrite Forall_forall in HI. rewrite Forall_forall in HL.
  split; apply Forall_forall; intros x Hx; apply paren_free_balanced.
  - apply HI. by eapply elem_of_submseteq.
  - apply HL. by eapply elem_of_submseteq.
Qed.

Lemma selected_are_template_instances nl ni nc g inst g' :
  sample_instance nl ni nc g = Ok (inst, g') →
  selected_safety_constraints inst ⊆+ all_safety_constraints inst
  ∧ Forall (template_instance (locations inst) (items inst))
      (all_safety_constraints inst).
Proof.
  intros (g1 & g2 & g3 & g4 & g5 & _ & _ & _ & H4 & H5 & _)%sample_instance_Ok.
  split; [by eapply select_Ok | by eapply generate_safety_constraints_sound].
Qed.

(** ** Typed object lists *)

Lemma submseteq_NoDup {A} (l k : list A) : l ⊆+ k → NoDup k → NoDup l.
Proof.
  intros [k' Hk]%submseteq_Permutation Hnd. rewrite Hk in Hnd.
  by apply NoDup_app in Hnd as [? _].
Qed.

Lemma NoDup_fmap_elem_inj {A B} (f : A → B) (l : list A) x y :
  NoDup (map f l) → x ∈ l → y ∈ l → f x = f y → x = y.
Proof.
  induction l as [|z l IH]; intros Hnd Hx Hy Hf; [by apply elem_of_nil in Hx|].
  simpl in Hnd. apply NoDup_cons in Hnd as [Hz Hnd].
  apply elem_of_cons in Hx as [->|Hx], Hy as [->|Hy]; [done | | |by apply IH].
  - exfalso. apply Hz. rewrite Hf. by apply list_elem_of_fmap_2.
  - exfalso. apply Hz. rewrite <- Hf. by apply list_elem_of_fmap_2.
Qed.

Lemma catalog_names_distinct : NoDup (map name ALL_ITEMS).
Proof. by_compute. Qed.

Lemma sampled_items_distinct nl ni nc g inst g' :
  sample_instance nl ni nc g = Ok (inst, g') →
  items inst ⊆+ ALL_ITEMS ∧ NoDup (map name (items inst)).
Proof.
  intros (g1 & g2 & g3 & g4 & g5 & _ & H2 & _)%sample_instance_Ok.
  apply sample_Ok in H2 as (_ & _ & Hsub). split; [done|].
  eapply submseteq_NoDup; [|exact catalog_names_distinct].
  by apply fmap_submseteq.
Qed.

Lemma electrical_name_iff items obj :
  NoDup (map name items) → obj ∈ items →
  (name obj ∈ electrical_items_names items ↔ has_property ELECTRICAL obj)
  ∧ (name obj ∈ non_electrical_items_names items ↔ ¬ has_property ELECTRICAL obj).
Proof.
  intros Hnd Hobj. unfold electrical_items_names, non_electrical_items_names.
  split; split.
  - intros (o & Hn & [He Ho]%list_elem_of_filter)%list_elem_of_fmap.
    by rewrite (NoDup_fmap_elem_inj name items obj o Hnd Hobj Ho Hn).
  - intros He. apply list_elem_of_fmap_2. by apply list_elem_of_filter.
  - intros (o & Hn & [He Ho]%list_elem_of_filter)%list_elem_of_fmap.
    by rewrite (NoDup_fmap_elem_inj name items obj o Hnd Hobj Ho Hn).
  - intros He. apply list_elem_of_fmap_2. by apply list_elem_of_filter.
Qed.

Lemma typed_line_cases (names : list string) (ty : string) :
  (if (0 <? length names)%nat
   then "    " +:+ join " " names +:+ ty +:+ LF else "")
  = match names with
    | [] => ""
    | _ :: _ => "    " +:+ join " " names +:+ ty +:+ LF
    end.
Proof. by destruct names. Qed.

(** * The statements of the specification *)

(** C3 (as amended). For every applicable-constraint list and every requested
    count [k] that is the sentinel [-1] or not negative, constraint selection
    succeeds and returns a sub-multiset of the applicable list (elements drawn
    without replacement): the full list unchanged when [k = -1], and exactly
    [min(k, |applicable|)] elements when [0 ≤ k]. *)
Theorem select_safety_constraints_size (applicable : list entry) (k : Z) (g : rng) :
  k = -1 ∨ 0 ≤ k →
  ∃ sel g', select_safety_constraints applicable k g = Ok (sel, g')
    ∧ sel ⊆+ applicable
    ∧ (k = -1 → sel = applicable)
    ∧ (0 ≤ k → Z.of_nat (length sel) = Z.min k (Z.of_nat (length applicable))).
Proof.
  intros [->|Hk].
  - exists applicable, g. split; [apply select_all|].
    split; [done|]. split; [done | lia].
  - destruct (select_count applicable k g Hk) as (sel & g' & Hrun & Hlen & Hsub).
    exists sel, g'. split; [done|]. split; [done|]. split; [lia | done].
Qed.

Lemma select_safety_constraints_size_witness :
  (2 = -1 ∨ 0 ≤ 2)
  ∧ ∃ sel g',
      select_safety_constraints
        [dont_go_near_item cat; dont_pick_plugged_item electric_kettle;
         use_both_hands_for_item wine_glass] 2 tape_odd = Ok (sel, g')
      ∧ sel ⊆+ [dont_go_near_item cat; dont_pick_plugged_item electric_kettle;
                use_both_hands_for_item wine_glass]
      ∧ (2 = -1 → sel = [dont_go_near_item cat; dont_pick_plugged_item electric_kettle;
                          use_both_hands_for_item wine_glass])
      ∧ (0 ≤ 2 → Z.of_nat (length sel) = Z.min 2 (Z.of_nat 3)).
Proof.
  split; [right; lia|].
  apply (select_safety_constraints_size
           [dont_go_near_item cat; dont_pick_plugged_item electric_kettle;
            use_both_hands_for_item wine_glass] 2 tape_odd).
  right. lia.
Defined.

(** C3 (as stated) fails: the count [-2] is not the sentinel, and selection
    raises [ValueError] instead of returning [min(-2, 1)] elements. *)
Lemma select_safety_constraints_negative_count :
  select_safety_constraints [dont_go_near_item cat] (-2) tape_zero
  = Raise ValueError
  ∧ ¬ ∃ sel g',
        select_safety_constraints [dont_go_near_item cat] (-2) tape_zero
        = Ok (sel, g')
        ∧ Z.of_nat (length sel) = Z.min (-2) 1.
Proof.
  split; [reflexivity|]. intros (sel & g' & H & _). discriminate H.
Qed.

(** C10. When [num_constraints] is negative and not the sentinel [-1],
    constraint selection raises [ValueError] on every applicable list (the
    requested sample size is negative), so [generate_problem] never returns;
    when the counts of locations and items are such that the steps before
    the selection succeed, the error of [generate_problem] is the one raised
    by the selection. *)
Theorem generate_problem_negative_count (nl ni nc : Z) (g : rng) :
  nc < 0 → nc ≠ -1 →
  (∀ all g0, select_safety_constraints all nc g0 = Raise ValueError)
  ∧ (∀ texts g', generate_problem nl ni nc g ≠ Ok (texts, g'))
  ∧ (1 ≤ nl ≤ 20 → 0 ≤ ni ≤ 21 →
     ∃ locs its st all g1 g2 g3 g4,
       sample ALL_LOCATIONS nl g = Ok (locs, g1)
       ∧ sample ALL_ITEMS ni g1 = Ok (its, g2)
       ∧ generate_random_initial_state locs its g2 = Ok (st, g3)
       ∧ generate_safety_constraints locs its g3 = Ok (all, g4)
       ∧ select_safety_constraints all nc g4 = Raise ValueError
       ∧ generate_problem nl ni nc g = Raise ValueError).
Proof.
  intros Hneg Hk. split; [|split].
  - intros all g0. by apply select_negative.
  - intros texts g' (inst & Hs & _)%generate_problem_Ok.
    apply sample_instance_Ok in Hs as (g1 & g2 & g3 & g4 & g5 & _ & _ & _ & _ & Hsel & _).
    by rewrite select_negative in Hsel.
  - intros Hnl Hni. destruct catalog_sizes as [HL HI].
    destruct (sample_total ALL_LOCATIONS nl g) as (locs & g1 & H1 & Hlen1 & _);
      [rewrite HL; lia|].
    destruct (sample_total ALL_ITEMS ni g1) as (its & g2 & H2 & _ & _);
      [rewrite HI; lia|].
    destruct (generate_random_initial_state_total locs its g2) as (st & g3 & H3).
    { intros ->. simpl in Hlen1. lia. }
    destruct (generate_safety_constraints_total locs its g3) as (all & g4 & H4).
    exists locs, its, st, all, g1, g2, g3, g4.
    repeat (split; [done|]). split; [by apply select_negative|].
    unfold generate_problem. apply bind_fail. unfold sample_instance.
    rewrite (bind_step _ _ _ _ _ H1), (bind_step _ _ _ _ _ H2),
      (bind_step _ _ _ _ _ H3), (bind_step _ _ _ _ _ H4).
    apply bind_fail. by apply select_negative.
Qed.

Lemma generate_problem_negative_count_witness :
  -2 < 0 ∧ -2 ≠ -1 ∧ generate_problem 2 3 (-2) tape_odd = Raise ValueError.
Proof.
  split; [lia|]. split; [lia|].
  destruct (generate_problem_negative_count 2 3 (-2) tape_odd) as (_ & _ & H);
    [lia | lia |].
  destruct H as (locs & its & st & all & g1 & g2 & g3 & g4 & _ & _ & _ & _ & _ & H);
    [lia | lia |].
  exact H.
Defined.

(** C9. [generate_random_goals] raises [ValueError] on an empty item list
    (the number of location goals is drawn from [1, len(items)]), so
    [generate_problem] never returns with [num_items = 0], although sampling
    zero items from the catalog succeeds; with a valid number of locations
    and a valid constraint count the error is that [ValueError]. Every goal
    list that is produced, and so every generated instance, starts with a
    location-assignment goal of a sampled item. *)
Theorem generate_random_goals_needs_items :
  (∀ locations il g, generate_random_goals locations [] il g = Raise ValueError)
  ∧ (∀ g, sample ALL_ITEMS 0 g = Ok ([], g))
  ∧ (∀ nl nc g texts g', generate_problem nl 0 nc g ≠ Ok (texts, g'))
  ∧ (∀ nl nc g, 1 ≤ nl ≤ 20 → nc = -1 ∨ 0 ≤ nc →
       generate_problem nl 0 nc g = Raise ValueError)
  ∧ (∀ locations items il g goals g',
       generate_random_goals locations items il g = Ok (goals, g') →
       ∃ obj loc rest, obj ∈ items ∧ loc ∈ locations ∧ goals = goal_at obj loc :: rest)
  ∧ (∀ nl ni nc g inst g',
       sample_instance nl ni nc g = Ok (inst, g') →
       ∃ obj loc rest,
         obj ∈ items inst ∧ loc ∈ locations inst
         ∧ goals inst = goal_at obj loc :: rest).
Proof.
  split; [reflexivity|]. split; [intros g; apply sample_zero|].
  split; [|split; [|split]].
  - intros nl nc g texts g' (inst & Hs & _)%generate_problem_Ok.
    apply sample_instance_Ok in Hs as (g1 & g2 & g3 & g4 & g5 & _ & H2 & _ & _ & _ & Hg).
    rewrite sample_zero in H2. injection H2 as H2 _. rewrite <- H2 in Hg.
    discriminate Hg.
  - intros nl nc g Hnl Hnc. destruct catalog_sizes as [HL _].
    destruct (sample_total ALL_LOCATIONS nl g) as (locs & g1 & H1 & Hlen1 & _);
      [rewrite HL; lia|].
    destruct (generate_random_initial_state_total locs [] g1) as (st & g3 & H3).
    { intros ->. simpl in Hlen1. lia. }
    assert (select_safety_constraints [] nc g3 = Ok ([], g3)) as H5.
    { destruct Hnc as [->|Hnc]; [reflexivity|].
      unfold select_safety_constraints.
      rewrite (proj2 (Z.eqb_neq nc (-1))) by lia.
      replace (Z.min nc (Z.of_nat (length (@nil entry)))) with 0 by (simpl; lia).
      reflexivity. }
    unfold generate_problem. apply bind_fail. unfold sample_instance.
    rewrite (bind_step _ _ _ _ _ H1), (bind_step _ _ _ _ _ (sample_zero _ _)),
      (bind_step _ _ _ _ _ H3),
      (bind_step _ _ _ _ _ (generate_safety_constraints_few locs [] g3 (Nat.le_0_l _))).
    change (fixed_constraints locs []) with (@nil entry).
    rewrite (bind_step _ _ _ _ _ H5).
    apply bind_fail. reflexivity.
  - apply generate_random_goals_first.
  - intros nl ni nc g inst g' Hs.
    apply sample_instance_Ok in Hs as (g1 & g2 & g3 & g4 & g5 & _ & _ & _ & _ & _ & Hg).
    by apply generate_random_goals_first in Hg.
Qed.

Lemma generate_random_goals_needs_items_witness :
  ∃ inst g',
    sample_instance 2 3 (-1) tape_odd = Ok (inst, g')
    ∧ ∃ obj loc rest,
        obj ∈ items inst ∧ loc ∈ locations inst
        ∧ goals inst = goal_at obj loc :: rest.
Proof.
  eexists _, _. split; [vm_compute; reflexivity|].
  eapply (proj2 (proj2 (proj2 (proj2 (proj2 generate_random_goals_needs_items))))
            2 3 (-1) tape_odd).
  vm_compute; reflexivity.
Defined.

(** C8. Whatever the random draws, every initial state that
    [generate_random_initial_state] produces starts with the predicate
    [(robot-at l)] of a location [l] of the sampled list, followed by the
    pair [(left-hand-empty) (right-hand-empty)], followed only by [(at ...)]
    and [(plugged-in ...)] predicates of sampled items: it holds exactly one
    [(robot-at ...)] predicate and declares both hands empty exactly once. *)
Theorem initial_state_robot_and_hands (locations : list Location)
    (items : list Item) (g : rng) st il g' :
  generate_random_initial_state locations items g = Ok ((st, il), g') →
  ∃ robot_location rest,
    robot_location ∈ locations
    ∧ st = ("(robot-at " +:+ loc_name robot_location +:+ ")",
            "The robot is at the " +:+ loc_name robot_location +:+ ".")
           :: ("(left-hand-empty) (right-hand-empty)",
               "The robot's both hands are empty.")
           :: rest
    ∧ Forall (placement_of locations items) rest
    ∧ length (filter (fun e => is_robot_at e) st) = 1%nat
    ∧ length (filter (fun e => is_hands_empty e) st) = 1%nat.
Proof.
  intros (loc & rest & Hloc & -> & Hrest)%generate_random_initial_state_Ok.
  exists loc, rest. split; [done|]. split; [reflexivity|]. split; [done|].
  split.
  - rewrite filter_cons_True by done.
    rewrite filter_cons_False by (by intros []).
    rewrite filter_none; [done|].
    eapply Forall_impl; [exact Hrest|]. apply placement_not_robot_at.
  - rewrite filter_cons_False.
    2:{ unfold is_hands_empty. simpl. by intros []. }
    rewrite filter_cons_True by done.
    rewrite filter_none; [done|].
    eapply Forall_impl; [exact Hrest|]. apply placement_not_hands.
Qed.

Lemma initial_state_robot_and_hands_witness :
  ∃ st il g',
    generate_random_initial_state [kitchen; bedroom] [cat; electric_kettle] tape_odd
    = Ok ((st, il), g')
    ∧ ∃ robot_location rest,
        robot_location ∈ [kitchen; bedroom]
        ∧ st = ("(robot-at " +:+ loc_name robot_location +:+ ")",
                "The robot is at the " +:+ loc_name robot_location +:+ ".")
               :: ("(left-hand-empty) (right-hand-empty)",
                   "The robot's both hands are empty.")
               :: rest
        ∧ Forall (placement_of [kitchen; bedroom] [cat; electric_kettle]) rest
        ∧ length (filter (fun e => is_robot_at e) st) = 1%nat
        ∧ length (filter (fun e => is_hands_empty e) st) = 1%nat.
Proof.
  eexists _, _, _. split; [vm_compute; reflexivity|].
  eapply (initial_state_robot_and_hands [kitchen; bedroom] [cat; electric_kettle]
            tape_odd).
  vm_compute; reflexivity.
Defined.

(** C1 (as amended). For every list of locations and items,
    [generate_safety_constraints] succeeds and its result is a list fixed by
    the two lists alone, followed by a random tail. The fixed part holds
    every applicable instance of the keep-distance, require-two-hands,
    forbid-outdoor-transport (every Fragile item with every outside
    location), forbid-co-transport (every Dangerous item with every Living
    item) and forbid-pickup-while-powered templates. The tail is empty when
    fewer than two sampled items are Electrical, and otherwise is the
    mutual-exclusive-power constraint of one pair of Electrical items drawn
    at random from two positions of the list. *)
Theorem generate_safety_constraints_enumeration (locations : list Location)
    (items : list Item) (g : rng) :
  ∃ tail g',
    generate_safety_constraints locations items g
    = Ok (fixed_constraints locations items ++ tail, g')
    ∧ (∀ obj, obj ∈ items → has_property LIVING obj →
         dont_go_near_item obj ∈ fixed_constraints locations items)
    ∧ (∀ obj, obj ∈ items → has_property FRAGILE obj →
         use_both_hands_for_item obj ∈ fixed_constraints locations items)
    ∧ (∀ obj loc, obj ∈ items → loc ∈ locations →
         has_property FRAGILE obj → is_inside loc = false →
         dont_take_item_to_location obj loc ∈ fixed_constraints locations items)
    ∧ (∀ obj obj2, obj ∈ items → obj2 ∈ items →
         has_property DANGEROUS obj → has_property LIVING obj2 →
         dont_take_item_to_location_with_another obj obj2
           ∈ fixed_constraints locations items)
    ∧ (∀ obj, obj ∈ items → has_property ELECTRICAL obj →
         dont_pick_plugged_item obj ∈ fixed_constraints locations items)
    ∧ ((length (electrical_of items) ≤ 1)%nat ∧ tail = []
       ∨ (1 < length (electrical_of items))%nat
         ∧ ∃ obj1 obj2,
             [obj1; obj2] ⊆+ electrical_of items
             ∧ tail = [dont_plug_items_in_same_location obj1 obj2]).
Proof.
  assert (∃ tail g',
    generate_safety_constraints locations items g
    = Ok (fixed_constraints locations items ++ tail, g')
    ∧ ((length (electrical_of items) ≤ 1)%nat ∧ tail = []
       ∨ (1 < length (electrical_of items))%nat
         ∧ ∃ obj1 obj2,
             [obj1; obj2] ⊆+ electrical_of items
             ∧ tail = [dont_plug_items_in_same_location obj1 obj2]))
    as (tail & g' & Hrun & Htail).
  { destruct (decide (length (electrical_of items) ≤ 1)%nat) as [Hfew|Hmany].
    - exists [], g. rewrite app_nil_r.
      split; [by apply generate_safety_constraints_few | by left].
    - destruct (generate_safety_constraints_pair locations items g)
        as (o1 & o2 & g1 & Hsub & Hrun); [lia|].
      exists [dont_plug_items_in_same_location o1 o2], g1.
      split; [done|]. right. split; [lia|]. eauto. }
  exists tail, g'.
  split; [done|]. split; [apply fixed_keep_distance|].
  split; [apply fixed_two_hands|]. split; [apply fixed_outdoor|].
  split; [apply fixed_co_transport|]. split; [apply fixed_pickup | done].
Qed.

Lemma generate_safety_constraints_enumeration_witness :
  ∃ tail g',
    generate_safety_constraints [kitchen; garden] [cat; chefs_knife; wine_glass] tape_odd
    = Ok (fixed_constraints [kitchen; garden] [cat; chefs_knife; wine_glass] ++ tail, g')
    ∧ dont_take_item_to_location_with_another chefs_knife cat
        ∈ fixed_constraints [kitchen; garden] [cat; chefs_knife; wine_glass]
    ∧ dont_take_item_to_location wine_glass garden
        ∈ fixed_constraints [kitchen; garden] [cat; chefs_knife; wine_glass].
Proof.
  destruct (generate_safety_constraints_enumeration
              [kitchen; garden] [cat; chefs_knife; wine_glass] tape_odd)
    as (tail & g' & Hrun & _ & _ & Hout & Hwith & _).
  exists tail, g'. split; [exact Hrun|]. split.
  - apply Hwith; [set_solver | set_solver | by_compute | by_compute].
  - apply Hout; [set_solver | set_solver | by_compute | reflexivity].
Defined.

(** C1 (as stated) fails. With three Electrical items the enumeration holds
    the mutual-exclusive-power constraint of one pair only: neither order of
    the kettle and the hair dryer is in it; and two random tapes give two
    different enumerations of the same lists. *)
Lemma generate_safety_constraints_misses_pairs :
  (∃ cs g',
     generate_safety_constraints [] [electric_kettle; electric_drill; hair_dryer]
       tape_zero = Ok (cs, g')
     ∧ electric_kettle ∈ [electric_kettle; electric_drill; hair_dryer]
     ∧ hair_dryer ∈ [electric_kettle; electric_drill; hair_dryer]
     ∧ electric_kettle ≠ hair_dryer
     ∧ has_property ELECTRICAL electric_kettle
     ∧ has_property ELECTRICAL hair_dryer
     ∧ (dont_plug_items_in_same_location electric_kettle hair_dryer ∉ cs)
     ∧ (dont_plug_items_in_same_location hair_dryer electric_kettle ∉ cs))
  ∧ (∃ cs1 g1 cs2 g2,
       generate_safety_constraints [] [electric_kettle; electric_drill; hair_dryer]
         tape_zero = Ok (cs1, g1)
       ∧ generate_safety_constraints [] [electric_kettle; electric_drill; hair_dryer]
           tape_succ = Ok (cs2, g2)
       ∧ cs1 ≠ cs2).
Proof.
  split.
  - eexists _, _. split; [vm_compute; reflexivity|].
    repeat split; try by_compute.
  - eexists _, _, _, _. split; [vm_compute; reflexivity|].
    split; [vm_compute; reflexivity|]. by_compute.
Qed.



(** C4. For every instance that one generation attempt samples, the text
    without constraints is the common prefix followed by the closing
    parenthesis line. When no constraint is selected the text with
    constraints is that same text. When some are selected it is the common
    prefix, one block ["  (" inner ") "] and the closing parenthesis line,
    where [inner] is [:constraints] followed by the selected formulas, one
    per line; all parentheses inside [inner] and inside each formula are
    matched, so the block is a single parenthesised group. *)
Theorem constraints_block_round_trip (nl ni nc : Z) (g : rng) inst g' :
  sample_instance nl ni nc g = Ok (inst, g') →
  ∃ base problem problem_without_constraints init_desc goal_desc constr_desc,
    generate_problem nl ni nc g
    = Ok ((problem, problem_without_constraints, init_desc, goal_desc,
           constr_desc), g')
    ∧ base = problem_prefix (locations inst) (items inst) (initial_state inst)
               (goals inst)
    ∧ problem_without_constraints = base +:+ ") " +:+ LF
    ∧ (selected_safety_constraints inst = [] →
       problem = problem_without_constraints)
    ∧ (selected_safety_constraints inst ≠ [] →
       problem
       = base
         +:+ ("  (" +:+ constraints_inner (selected_safety_constraints inst)
              +:+ ") " +:+ LF)
         +:+ ") " +:+ LF
       ∧ constraints_inner (selected_safety_constraints inst)
         = ":constraints " +:+ LF +:+ "    "
           +:+ join (" " +:+ LF +:+ "    ")
                 (map fst (selected_safety_constraints inst))
           +:+ " " +:+ LF +:+ "  "
       ∧ balanced (constraints_inner (selected_safety_constraints inst))
       ∧ Forall (fun c => balanced (fst c)) (selected_safety_constraints inst)).
Proof.
  intros Hs.
  eexists _, _, _, _, _, _. split.
  { unfold generate_problem. rewrite (bind_step _ _ _ _ _ Hs). reflexivity. }
  split; [reflexivity|]. split; [reflexivity|]. split.
  - intros ->. reflexivity.
  - intros Hne. split; [|split; [reflexivity|]].
    + destruct (selected_safety_constraints inst) as [|c sel]; [done|].
      unfold constraints_block, constraints_inner, closing, LF.
      rewrite !append_assoc. reflexivity.
    + assert (Forall (fun c => balanced (fst c)) (selected_safety_constraints inst))
        as Hbal.
      { destruct (sampled_names_balanced _ _ _ _ _ _ Hs) as [HI HL].
        destruct (selected_are_template_instances _ _ _ _ _ _ Hs) as [Hsub Hall].
        rewrite Forall_forall in Hall. apply Forall_forall. intros c Hc.
        eapply template_instance_balanced; [exact HI | exact HL |].
        apply Hall. by eapply elem_of_submseteq. }
      split; [|exact Hbal].
      unfold constraints_inner.
      repeat apply balanced_app;
        try (apply paren_free_balanced; reflexivity).
      apply balanced_join; [apply paren_free_balanced; reflexivity|].
      by apply Forall_fmap.
Qed.

Lemma constraints_block_round_trip_witness :
  match sample_instance 3 6 (-1) tape_odd with
  | Ok (inst, g') =>
      selected_safety_constraints inst ≠ []
      ∧ ∃ problem problem_without_constraints init_desc goal_desc constr_desc,
          generate_problem 3 6 (-1) tape_odd
          = Ok ((problem, problem_without_constraints, init_desc, goal_desc,
                 constr_desc), g')
          ∧ problem
            = problem_prefix (locations inst) (items inst) (initial_state inst)
                (goals inst)
              +:+ ("  (" +:+ constraints_inner (selected_safety_constraints inst)
                   +:+ ") " +:+ LF)
              +:+ ") " +:+ LF
          ∧ balanced (constraints_inner (selected_safety_constraints inst))
  | Raise _ => False
  end.
Proof.
  assert (match sample_instance 3 6 (-1) tape_odd with
          | Ok (inst, _) => bool_decide (selected_safety_constraints inst ≠ [])
          | Raise _ => false
          end = true) as Hsel by (vm_compute; reflexivity).
  destruct (sample_instance 3 6 (-1) tape_odd) as [[inst g']|e] eqn:E;
    [|discriminate Hsel].
  apply bool_decide_eq_true in Hsel. split; [exact Hsel|].
  destruct (constraints_block_round_trip 3 6 (-1) tape_odd inst g' E)
    as (base & p & pwo & i & gd & cd & Hrun & -> & _ & _ & Hblock).
  specialize (Hblock Hsel). destruct Hblock as (Hp & _ & Hbal & _).
  exists p, pwo, i, gd, cd. split; [exact Hrun|]. split; [exact Hp | exact Hbal].
Defined.

(** C6 (the code at the failing input). The chef's knife is Dangerous and
    the cat is Living. In the state where the robot is in the kitchen with
    the knife in its left hand and the cat is in the bedroom, the robot holds
    the knife somewhere other than where the cat is, and yet the formula of
    [dont_take_item_to_location_with_another] is false: it has no
    [(robot-at ?l)] conjunct, unlike the formula of [dont_go_near_item], which
    is true in that state. The same holds for every Dangerous and Living
    pair of the catalog. *)
Theorem co_transport_ignores_robot_location :
  has_property DANGEROUS chefs_knife ∧ has_property LIVING cat
  ∧ chefs_knife ∈ ALL_ITEMS ∧ cat ∈ ALL_ITEMS
  ∧ fact_holds knife_away_from_cat ["holding-left"; "chefs-knife"] = true
  ∧ fact_holds knife_away_from_cat ["robot-at"; "kitchen"] = true
  ∧ fact_holds knife_away_from_cat ["at"; "cat"; "bedroom"] = true
  ∧ fact_holds knife_away_from_cat ["at"; "cat"; "kitchen"] = false
  ∧ satisfies knife_away_from_cat
      (fst (dont_take_item_to_location_with_another chefs_knife cat))
    = Some false
  ∧ snd (dont_take_item_to_location_with_another chefs_knife cat)
    = "The robot should never be holding the chefs-knife at a location where the cat is."
  ∧ satisfies knife_away_from_cat (fst (dont_go_near_item cat)) = Some true
  ∧ Forall (fun p => satisfies (holding_elsewhere p.1 p.2)
                       (fst (dont_take_item_to_location_with_another p.1 p.2))
                     = Some false)
      (list_prod DANGEROUS_ITEMS LIVING_ITEMS).
Proof.
  repeat split; try by_compute; vm_compute; reflexivity.
Qed.

(** C5. In the problem text of every generated instance the [(:objects ...)]
    section follows the domain line and is made of the location line, the
    line of the plain items and the line of the electrical items, where the
    line of an empty category is absent (it is the empty text, not an empty
    declaration). A sampled item is named in the electrical list iff it
    carries the Electrical property and in the plain list iff it does not,
    so it is named in exactly one of the two; the two lists name sampled
    items only. *)
Theorem objects_section_typing (nl ni nc : Z) (g : rng) inst g' :
  sample_instance nl ni nc g = Ok (inst, g') →
  let electrical := electrical_items_names (items inst) in
  let plain := non_electrical_items_names (items inst) in
  (∃ rest,
     (format_problem inst).1.1.1.1
     = "(define (problem random-manipulation) " +:+ LF
       +:+ "  (:domain manipulation) " +:+ LF
       +:+ objects_section (locations inst) (items inst) +:+ rest)
  ∧ objects_section (locations inst) (items inst)
    = "  (:objects " +:+ LF
      +:+ ("    " +:+ join " " (map loc_name (locations inst)) +:+ " - location " +:+ LF)
      +:+ match plain with
          | [] => ""
          | _ :: _ => "    " +:+ join " " plain +:+ " - item " +:+ LF
          end
      +:+ match electrical with
          | [] => ""
          | _ :: _ => "    " +:+ join " " electrical +:+ " - electrical-item " +:+ LF
          end
      +:+ "  ) " +:+ LF
  ∧ (∀ obj, obj ∈ items inst →
       (name obj ∈ electrical ↔ has_property ELECTRICAL obj)
       ∧ (name obj ∈ plain ↔ ¬ has_property ELECTRICAL obj)
       ∧ (name obj ∈ electrical ∨ name obj ∈ plain)
       ∧ ¬ (name obj ∈ electrical ∧ name obj ∈ plain))
  ∧ (∀ n, n ∈ electrical ∨ n ∈ plain → ∃ obj, obj ∈ items inst ∧ name obj = n).
Proof.
  intros Hs electrical plain.
  destruct (sampled_items_distinct _ _ _ _ _ _ Hs) as [_ Hnd].
  split; [|split; [|split]].
  - unfold format_problem. cbn [fst]. unfold problem_prefix.
    rewrite !append_assoc. eexists. reflexivity.
  - unfold objects_section, location_line, item_line, electrical_item_line.
    fold electrical plain. by rewrite !typed_line_cases.
  - intros obj Hobj.
    destruct (electrical_name_iff (items inst) obj Hnd Hobj) as [He Hp].
    fold electrical in He. fold plain in Hp.
    split; [done|]. split; [done|]. rewrite He, Hp.
    destruct (has_property ELECTRICAL obj); simpl; split; auto.
    + by intros [_ ?].
    + by intros [? _].
  - intros n [Hn|Hn];
      apply list_elem_of_fmap in Hn as (obj & -> & [_ Hobj]%list_elem_of_filter);
      eauto.
Qed.

Lemma objects_section_typing_witness :
  match sample_instance 3 6 (-1) tape_succ with
  | Ok (inst, g') =>
      ∀ obj, obj ∈ items inst →
        (name obj ∈ electrical_items_names (items inst)
         ↔ has_property ELECTRICAL obj)
        ∧ (name obj ∈ non_electrical_items_names (items inst)
           ↔ ¬ has_property ELECTRICAL obj)
  | Raise _ => False
  end.
Proof.
  assert (match sample_instance 3 6 (-1) tape_succ with
          | Ok _ => true
          | Raise _ => false
          end = true) as Hok by (vm_compute; reflexivity).
  destruct (sample_instance 3 6 (-1) tape_succ) as [[inst g']|e] eqn:E;
    [|discriminate Hok].
  intros obj Hobj.
  destruct (objects_section_typing 3 6 (-1) tape_succ inst g' E)
    as (_ & _ & Hty & _).
  destruct (Hty obj Hobj) as (He & Hp & _). split; [exact He | exact Hp].
Defined.

Section ValidityFilterProperties.
Context {Plan W : Type} `{EqDecision Plan}.
Variable run_fast_downward_planner : string → string → bool → W → Plan * W.
Variable get_domain_pddl : string.

(** C2. With the oracle as a parameter: when
    [generate_one_useful_instance] returns, the loop has thrown away every
    earlier candidate (each had two equal plans) and the returned texts
    come from a candidate for which the oracle, called first on the
    problem with constraints and then on the problem without, returned two
    different plans. One pass of the loop on a candidate with equal plans
    continues with a fresh candidate from the advanced random state; one
    pass on a candidate with different plans returns it. *)
Theorem useful_instance_plans_differ (nl ni nc : Z) :
  (∀ fuel g w problem init_desc goal_desc constr_desc g' w',
     generate_one_useful_instance run_fast_downward_planner get_domain_pddl
       fuel nl ni nc g w
     = Some (Ok ((problem, init_desc, goal_desc, constr_desc), g', w')) →
     ∃ g0 w0 problem_wo sol1 w1 sol2,
       discards run_fast_downward_planner get_domain_pddl nl ni nc g w g0 w0
       ∧ generate_problem nl ni nc g0
         = Ok ((problem, problem_wo, init_desc, goal_desc, constr_desc), g')
       ∧ run_fast_downward_planner get_domain_pddl problem true w0 = (sol1, w1)
       ∧ run_fast_downward_planner get_domain_pddl problem_wo true w1
         = (sol2, w')
       ∧ sol1 ≠ sol2)
  ∧ (∀ fuel g w problem problem_wo init_desc goal_desc constr_desc g1
       sol1 w1 sol2 w2,
       generate_problem nl ni nc g
       = Ok ((problem, problem_wo, init_desc, goal_desc, constr_desc), g1) →
       run_fast_downward_planner get_domain_pddl problem true w = (sol1, w1) →
       run_fast_downward_planner get_domain_pddl problem_wo true w1 = (sol2, w2) →
       (sol1 = sol2 →
        generate_one_useful_instance run_fast_downward_planner get_domain_pddl
          (S fuel) nl ni nc g w
        = generate_one_useful_instance run_fast_downward_planner get_domain_pddl
            fuel nl ni nc g1 w2)
       ∧ (sol1 ≠ sol2 →
          generate_one_useful_instance run_fast_downward_planner get_domain_pddl
            (S fuel) nl ni nc g w
          = Some (Ok ((problem, init_desc, goal_desc, constr_desc), g1, w2)))).
Proof.
  split.
  - induction fuel as [|fuel IH]; intros g w p i gd cd g' w' H; [discriminate|].
    simpl in H.
    destruct (generate_problem nl ni nc g)
      as [[[[[[p0 pwo0] i0] gd0] cd0] g1]|e] eqn:E; [|discriminate].
    destruct (optimal_solutions_are_equal run_fast_downward_planner
                get_domain_pddl p0 pwo0 w) as [equal w1] eqn:Eo.
    destruct equal; simpl in H.
    + destruct (IH _ _ _ _ _ _ _ _ H)
        as (g0 & w0 & pwo & sol1 & wa & sol2 & Hd & Hg & H1 & H2 & Hne).
      exists g0, w0, pwo, sol1, wa, sol2. split; [|done].
      eapply discards_one; [exact E | exact Eo | exact Hd].
    + injection H as -> -> -> -> -> ->.
      unfold optimal_solutions_are_equal in Eo.
      destruct (run_fast_downward_planner get_domain_pddl p true w)
        as [sol1 wa] eqn:E1.
      destruct (run_fast_downward_planner get_domain_pddl pwo0 true wa)
        as [sol2 wb] eqn:E2.
      injection Eo as Hb ->.
      exists g, w, pwo0, sol1, wa, sol2. split; [constructor|].
      split; [done|]. split; [done|]. split; [done|].
      by apply bool_decide_eq_false in Hb.
  - intros fuel g w p pwo i gd cd g1 sol1 w1 sol2 w2 Hg H1 H2.
    simpl. rewrite Hg. unfold optimal_solutions_are_equal. rewrite H1, H2.
    split; intros Hs.
    + by rewrite (bool_decide_eq_true_2 _ Hs).
    + by rewrite (bool_decide_eq_false_2 _ Hs).
Qed.
End ValidityFilterProperties.

Lemma useful_instance_plans_differ_witness :
  match generate_one_useful_instance stub_planner "(define (domain manipulation))"
          5 3 6 (-1) tape_odd O with
  | Some (Ok ((problem, init_desc, goal_desc, constr_desc), g', w')) =>
      ∃ g0 w0 problem_wo sol1 w1 sol2,
        discards stub_planner "(define (domain manipulation))" 3 6 (-1)
          tape_odd O g0 w0
        ∧ generate_problem 3 6 (-1) g0
          = Ok ((problem, problem_wo, init_desc, goal_desc, constr_desc), g')
        ∧ stub_planner "(define (domain manipulation))" problem true w0 = (sol1, w1)
        ∧ stub_planner "(define (domain manipulation))" problem_wo true w1
          = (sol2, w')
        ∧ sol1 ≠ sol2
  | _ => False
  end.
Proof.
  assert (match generate_one_useful_instance stub_planner
                  "(define (domain manipulation))" 5 3 6 (-1) tape_odd O with
          | Some (Ok _) => true
          | _ => false
          end = true) as Hok by (vm_compute; reflexivity).
  destruct (generate_one_useful_instance stub_planner
              "(define (domain manipulation))" 5 3 6 (-1) tape_odd O)
    as [[[[[[[p i] gd] cd] g'] w']|e]|] eqn:E; [|discriminate Hok..].
  exact (proj1 (useful_instance_plans_differ stub_planner
                  "(define (domain manipulation))" 3 6 (-1))
           5%nat tape_odd O p i gd cd g' w' E).
Defined.


(** * Further properties of the generator *)

(** ** When one generation attempt succeeds *)

Lemma add_loc_goal_total locations gs obj g :
  locations ≠ [] → ∃ gs' g', add_loc_goal locations gs obj g = Ok (gs', g').
Proof.
  intros Hne. destruct (choice_total locations g Hne) as (l & _ & Hl).
  unfold add_loc_goal. rewrite (bind_step _ _ _ _ _ Hl). by eexists _, _.
Qed.

Lemma add_plug_goal_total gs obj g : ∃ gs' g', add_plug_goal gs obj g = Ok (gs', g').
Proof.
  destruct (choice_total [true; false] g) as (b & _ & Hb); [done|].
  unfold add_plug_goal. rewrite (bind_step _ _ _ _ _ Hb).
  destruct b; by eexists _, _.
Qed.

Lemma generate_random_goals_total locations items il g :
  locations ≠ [] → items ≠ [] →
  ∃ goals g', generate_random_goals locations items il g = Ok (goals, g').
Proof.
  intros Hlocs Hitems. unfold generate_random_goals.
  assert (1 ≤ Z.of_nat (length items)) as Hlen by (destruct items; simpl in *; [done | lia]).
  destruct (randint_total 1 (Z.of_nat (length items)) g Hlen) as (n1 & Hn1 & R1).
  rewrite (bind_step _ _ _ _ _ R1).
  destruct (sample_total items n1 (mkRng (tape g) (S (pos g)))) as (lgi & g2 & S1 & _ & _);
    [lia|].
  rewrite (bind_step _ _ _ _ _ S1).
  destruct (foldM_total (add_loc_goal locations) lgi
              (fun s x g _ => add_loc_goal_total locations s x g Hlocs) [] g2)
    as (gs1 & g3 & F1).
  rewrite (bind_step _ _ _ _ _ F1). cbv beta zeta.
  set (electrical := filter (fun e => has_property ELECTRICAL e) items).
  destruct (randint_total 0 (Z.of_nat (length electrical)) g3) as (n2 & Hn2 & R2);
    [lia|].
  rewrite (bind_step _ _ _ _ _ R2).
  destruct (sample_total electrical n2 (mkRng (tape g3) (S (pos g3))))
    as (pgi & g5 & S2 & _ & _); [lia|].
  rewrite (bind_step _ _ _ _ _ S2).
  destruct (foldM_total add_plug_goal pgi
              (fun s x g _ => add_plug_goal_total s x g) gs1 g5) as (gs2 & g6 & F2).
  rewrite (bind_step _ _ _ _ _ F2). cbv beta zeta.
  set (candidates := filter (fun e => e ∉ lgi) items).
  destruct (randint_total 0 (Z.min (Z.of_nat (length candidates)) 2) g6)
    as (n3 & Hn3 & R3); [lia|].
  rewrite (bind_step _ _ _ _ _ R3).
  destruct (sample_total candidates n3 (mkRng (tape g6) (S (pos g6))))
    as (hgi & g8 & S3 & _ & _); [lia|].
  rewrite (bind_step _ _ _ _ _ S3).
  destruct (foldM_total add_holding_goal hgi
              (fun s x g _ => ex_intro _ _ (ex_intro _ g eq_refl)) gs2 g8)
    as (gs3 & g9 & F3).
  rewrite (bind_step _ _ _ _ _ F3).
  destruct (choice_total [true; false] g9) as (b & _ & Hb); [done|].
  rewrite (bind_step _ _ _ _ _ Hb).
  destruct b; [|by eexists _, _].
  destruct (choice_total locations (mkRng (tape g9) (S (pos g9))) Hlocs) as (l & _ & Hl).
  rewrite (bind_step _ _ _ _ _ Hl). by eexists _, _.
Qed.

Lemma generate_random_initial_state_Ok_nonempty locations items g st g' :
  generate_random_initial_state locations items g = Ok (st, g') → locations ≠ [].
Proof. intros H ->. discriminate H. Qed.

Lemma generate_random_goals_Ok_nonempty locations items il g goals g' :
  generate_random_goals locations items il g = Ok (goals, g') → items ≠ [].
Proof. intros H ->. discriminate H. Qed.

Lemma select_Ok_count (applicable : list entry) k g sel g' :
  select_safety_constraints applicable k g = Ok (sel, g') → k = -1 ∨ 0 ≤ k.
Proof.
  intros H. destruct (decide (k = -1)) as [|Hk]; [by left | right].
  destruct (Z.lt_ge_cases k 0) as [Hneg|]; [|done].
  by rewrite select_negative in H.
Qed.

Lemma sample_instance_total nl ni nc g :
  1 ≤ nl ≤ 20 → 1 ≤ ni ≤ 21 → nc = -1 ∨ 0 ≤ nc →
  ∃ inst g', sample_instance nl ni nc g = Ok (inst, g').
Proof.
  intros Hnl Hni Hnc. destruct catalog_sizes as [HL HI]. unfold sample_instance.
  destruct (sample_total ALL_LOCATIONS nl g) as (locs & g1 & H1 & Hlen1 & _);
    [rewrite HL; lia|].
  destruct (sample_total ALL_ITEMS ni g1) as (its & g2 & H2 & Hlen2 & _);
    [rewrite HI; lia|].
  assert (locs ≠ []) as Hlocs by (intros ->; simpl in Hlen1; lia).
  assert (its ≠ []) as Hits by (intros ->; simpl in Hlen2; lia).
  destruct (generate_random_initial_state_total locs its g2 Hlocs) as (st & g3 & H3).
  destruct (generate_safety_constraints_total locs its g3) as (all & g4 & H4).
  assert (∃ sel g5, select_safety_constraints all nc g4 = Ok (sel, g5))
    as (sel & g5 & H5).
  { destruct Hnc as [->|Hnc]; [by eexists _, _|].
    destruct (select_count all nc g4 Hnc) as (sel & g5 & H5 & _). eauto. }
  destruct (generate_random_goals_total locs its (st.2) g5 Hlocs Hits) as (gls & g6 & H6).
  rewrite (bind_step _ _ _ _ _ H1), (bind_step _ _ _ _ _ H2),
    (bind_step _ _ _ _ _ H3), (bind_step _ _ _ _ _ H4),
    (bind_step _ _ _ _ _ H5), (bind_step _ _ _ _ _ H6).
  by eexists _, _.
Qed.

Lemma sample_instance_Ok_counts nl ni nc g inst g' :
  sample_instance nl ni nc g = Ok (inst, g') →
  1 ≤ nl ≤ 20 ∧ 1 ≤ ni ≤ 21 ∧ (nc = -1 ∨ 0 ≤ nc)
  ∧ Z.of_nat (length (locations inst)) = nl
  ∧ Z.of_nat (length (items inst)) = ni.
Proof.
  intros (g1 & g2 & g3 & g4 & g5 & H1 & H2 & H3 & _ & H5 & H6)%sample_instance_Ok.
  destruct catalog_sizes as [HL HI].
  apply sample_Ok in H1 as (Hnl & Hlen1 & _), H2 as (Hni & Hlen2 & _).
  apply generate_random_initial_state_Ok_nonempty in H3.
  apply generate_random_goals_Ok_nonempty in H6.
  apply select_Ok_count in H5.
  rewrite HL in Hnl. rewrite HI in Hni.
  destruct (locations inst); [done|]. destruct (items inst); [done|].
  simpl in Hlen1, Hlen2. repeat split; try done; lia.
Qed.

(** X1. One call of [generate_problem] returns (for every random tape) exactly
    when there are between 1 and 20 locations, between 1 and 21 items, and
    the constraint count is [-1] or not negative. *)
Theorem generate_problem_succeeds_iff (nl ni nc : Z) (g : rng) :
  (∃ texts g', generate_problem nl ni nc g = Ok (texts, g'))
  ↔ 1 ≤ nl ≤ 20 ∧ 1 ≤ ni ≤ 21 ∧ (nc = -1 ∨ 0 ≤ nc).
Proof.
  split.
  - intros (texts & g' & (inst & Hs & _)%generate_problem_Ok).
    apply sample_instance_Ok_counts in Hs as (? & ? & ? & _). done.
  - intros (Hnl & Hni & Hnc).
    destruct (sample_instance_total nl ni nc g Hnl Hni Hnc) as (inst & g' & Hs).
    exists (format_problem inst), g'. apply generate_problem_Ok. eauto.
Qed.

(** X2. The kind of error on bad counts: a number of locations outside
    [0..20] raises [ValueError] (the sample is larger than the catalog or
    negative); so does a number of items outside [0..21] once the locations
    are sampled; zero locations raise [IndexError], from the choice of the
    robot's location in an empty list. *)
Theorem generate_problem_bad_counts (nl ni nc : Z) (g : rng) :
  (nl < 0 ∨ 20 < nl → generate_problem nl ni nc g = Raise ValueError)
  ∧ (0 ≤ nl ≤ 20 → ni < 0 ∨ 21 < ni →
     generate_problem nl ni nc g = Raise ValueError)
  ∧ (nl = 0 → 0 ≤ ni ≤ 21 → generate_problem nl ni nc g = Raise IndexError).
Proof.
  destruct catalog_sizes as [HL HI].
  split; [|split].
  - intros Hnl. unfold generate_problem. apply bind_fail.
    unfold sample_instance. apply bind_fail. apply sample_invalid.
    rewrite HL. lia.
  - intros Hnl Hni. unfold generate_problem. apply bind_fail. unfold sample_instance.
    destruct (sample_total ALL_LOCATIONS nl g) as (locs & g1 & H1 & _);
      [rewrite HL; lia|].
    rewrite (bind_step _ _ _ _ _ H1). apply bind_fail. apply sample_invalid.
    rewrite HI. lia.
  - intros -> Hni. unfold generate_problem. apply bind_fail. unfold sample_instance.
    rewrite (bind_step _ _ _ _ _ (sample_zero _ _)).
    destruct (sample_total ALL_ITEMS ni g) as (its & g2 & H2 & _);
      [rewrite HI; lia|].
    rewrite (bind_step _ _ _ _ _ H2). apply bind_fail. reflexivity.
Qed.

Lemma generate_problem_bad_counts_witness :
  generate_problem 21 3 (-1) tape_odd = Raise ValueError
  ∧ generate_problem 3 22 (-1) tape_odd = Raise ValueError
  ∧ generate_problem 0 3 (-1) tape_odd = Raise IndexError.
Proof.
  destruct (generate_problem_bad_counts 21 3 (-1) tape_odd) as (H1 & _ & _).
  destruct (generate_problem_bad_counts 3 22 (-1) tape_odd) as (_ & H2 & _).
  destruct (generate_problem_bad_counts 0 3 (-1) tape_odd) as (_ & _ & H3).
  split; [apply H1; lia|]. split; [apply H2; lia | apply H3; lia].
Defined.

(** ** What is sampled *)

Lemma catalog_distinct :
  NoDup ALL_LOCATIONS ∧ NoDup ALL_ITEMS ∧ NoDup (map loc_name ALL_LOCATIONS).
Proof. split; [by_compute|]. split; by_compute. Qed.

Lemma catalog_has_no_heavy_item :
  Forall (fun obj => (obj ∉ HEAVY_ITEMS) ∧ ¬ has_property HEAVY obj) ALL_ITEMS.
Proof. by_compute. Qed.

(** X3. The locations and items of a generated instance are exactly as many
    as requested, pairwise different (also by name) and taken from the
    catalog; no item of [HEAVY_ITEMS] and no item with the Heavy property is
    ever among them, because [ALL_ITEMS] leaves the heavy items out. *)
Theorem sampled_entities (nl ni nc : Z) (g : rng) inst g' :
  sample_instance nl ni nc g = Ok (inst, g') →
  Z.of_nat (length (locations inst)) = nl
  ∧ Z.of_nat (length (items inst)) = ni
  ∧ locations inst ⊆+ ALL_LOCATIONS
  ∧ items inst ⊆+ ALL_ITEMS
  ∧ NoDup (locations inst) ∧ NoDup (map loc_name (locations inst))
  ∧ NoDup (items inst) ∧ NoDup (map name (items inst))
  ∧ (∀ obj, obj ∈ items inst → (obj ∉ HEAVY_ITEMS) ∧ ¬ has_property HEAVY obj).
Proof.
  intros Hs.
  destruct (sample_instance_Ok_counts _ _ _ _ _ _ Hs) as (_ & _ & _ & Hl1 & Hl2).
  apply sample_instance_Ok in Hs as (g1 & g2 & _ & _ & _ & H1 & H2 & _).
  apply sample_Ok in H1 as (_ & _ & Hsub1), H2 as (_ & _ & Hsub2).
  destruct catalog_distinct as (HdL & HdI & HdLn).
  split; [done|]. split; [done|]. split; [done|]. split; [done|].
  split; [by eapply submseteq_NoDup|].
  split; [eapply submseteq_NoDup; [by apply fmap_submseteq | done]|].
  split; [by eapply submseteq_NoDup|].
  split; [eapply submseteq_NoDup; [by apply fmap_submseteq | exact catalog_names_distinct]|].
  intros obj Hobj. pose proof catalog_has_no_heavy_item as Hh.
  rewrite Forall_forall in Hh. apply Hh. by eapply elem_of_submseteq.
Qed.

Lemma sampled_entities_witness :
  match sample_instance 3 6 (-1) tape_odd with
  | Ok (inst, g') =>
      Z.of_nat (length (locations inst)) = 3
      ∧ Z.of_nat (length (items inst)) = 6
      ∧ NoDup (map name (items inst))
      ∧ (∀ obj, obj ∈ items inst → (obj ∉ HEAVY_ITEMS) ∧ ¬ has_property HEAVY obj)
  | Raise _ => False
  end.
Proof.
  assert (match sample_instance 3 6 (-1) tape_odd with
          | Ok _ => true
          | Raise _ => false
          end = true) as Hok by (vm_compute; reflexivity).
  destruct (sample_instance 3 6 (-1) tape_odd) as [[inst g']|e] eqn:E;
    [|discriminate Hok].
  destruct (sampled_entities 3 6 (-1) tape_odd inst g' E)
    as (H1 & H2 & _ & _ & _ & _ & _ & H3 & H4).
  split; [exact H1|]. split; [exact H2|]. split; [exact H3 | exact H4].
Defined.

(** ** The enumeration, continued *)

Lemma length_filter_property p (x : Item) (l : list Item) :
  length (filter (fun o => has_property p o) (x :: l))
  = ((if has_property p x then 1 else 0)
     + length (filter (fun o => has_property p o) l))%nat.
Proof.
  rewrite filter_cons. destruct (has_property p x) eqn:E.
  - rewrite decide_True by done. reflexivity.
  - rewrite decide_False by (by intros []). reflexivity.
Qed.

Lemma length_fixed_constraints locations (items0 items : list Item) :
  length (flat_map (item_constraints locations items0) items)
  = (length (filter (fun o => has_property LIVING o) items)
     + length (filter (fun o => has_property FRAGILE o) items)
       * (1 + length (filter (fun l => is_inside l = false) locations))
     + length (filter (fun o => has_property DANGEROUS o) items)
       * length (filter (fun o => has_property LIVING o) items0)
     + length (filter (fun o => has_property ELECTRICAL o) items))%nat.
Proof.
  induction items as [|x items IH]; [reflexivity|].
  simpl flat_map. rewrite length_app, IH, !length_filter_property.
  unfold item_constraints.
  destruct (has_property LIVING x), (has_property FRAGILE x),
    (has_property DANGEROUS x), (has_property ELECTRICAL x);
    rewrite ?length_app, ?length_map; simpl; lia.
Qed.

(** X4. Nothing but applicable template instances is enumerated: every
    constraint that [generate_safety_constraints] returns is one of the six
    templates applied to items and locations of the given lists that have
    the properties the template asks for. When the items are pairwise
    different, the two items of the mutual-exclusive-power constraint are
    two different Electrical items. *)
Theorem enumerated_constraints_are_applicable (locations : list Location)
    (items : list Item) (g : rng) cs g' :
  generate_safety_constraints locations items g = Ok (cs, g') →
  Forall (template_instance locations items) cs
  ∧ (NoDup items →
     cs = fixed_constraints locations items
     ∨ ∃ obj1 obj2,
         obj1 ≠ obj2 ∧ obj1 ∈ items ∧ obj2 ∈ items
         ∧ has_property ELECTRICAL obj1 ∧ has_property ELECTRICAL obj2
         ∧ cs = fixed_constraints locations items
                ++ [dont_plug_items_in_same_location obj1 obj2]).
Proof.
  intros H. split; [by eapply generate_safety_constraints_sound|].
  intros Hnd.
  destruct (decide (length (electrical_of items) ≤ 1)%nat) as [Hfew|Hmany].
  - rewrite generate_safety_constraints_few in H by done.
    injection H as <- _. by left.
  - destruct (generate_safety_constraints_pair locations items g)
      as (o1 & o2 & g1 & Hsub & Hrun); [lia|].
    rewrite Hrun in H. injection H as <- _. right. exists o1, o2.
    assert (NoDup [o1; o2]) as Hnd2.
    { eapply submseteq_NoDup; [exact Hsub|]. by apply NoDup_filter. }
    assert (o1 ∈ electrical_of items ∧ o2 ∈ electrical_of items) as [H1 H2].
    { split; eapply elem_of_submseteq; try exact Hsub; set_solver. }
    apply list_elem_of_filter in H1 as [? ?], H2 as [? ?].
    split; [|done].
    apply NoDup_cons in Hnd2 as [Hne _]. intros ->. apply Hne. left.
Qed.

Lemma enumerated_constraints_are_applicable_witness :
  ∃ cs g',
    generate_safety_constraints [kitchen; garden]
      [cat; electric_kettle; wine_glass; hair_dryer] tape_succ = Ok (cs, g')
    ∧ Forall (template_instance [kitchen; garden]
                [cat; electric_kettle; wine_glass; hair_dryer]) cs.
Proof.
  eexists _, _. split; [vm_compute; reflexivity|].
  destruct (enumerated_constraints_are_applicable [kitchen; garden]
              [cat; electric_kettle; wine_glass; hair_dryer] tape_succ _ _
              ltac:(vm_compute; reflexivity)) as [Hall _].
  exact Hall.
Defined.

(** X5. The number of enumerated constraints: one per Living item, one per
    Fragile item and one more per Fragile item and outside location, one per
    pair of a Dangerous and a Living item, one per Electrical item, and one
    more when at least two items are Electrical. *)
Theorem number_of_enumerated_constraints (locations : list Location)
    (items : list Item) (g : rng) cs g' :
  generate_safety_constraints locations items g = Ok (cs, g') →
  length cs
  = (length (filter (fun o => has_property LIVING o) items)
     + length (filter (fun o => has_property FRAGILE o) items)
       * (1 + length (filter (fun l => is_inside l = false) locations))
     + length (filter (fun o => has_property DANGEROUS o) items)
       * length (filter (fun o => has_property LIVING o) items)
     + length (filter (fun o => has_property ELECTRICAL o) items)
     + (if (1 <? length (filter (fun o => has_property ELECTRICAL o) items))%nat
        then 1 else 0))%nat.
Proof.
  intros H. fold (electrical_of items).
  destruct (decide (length (electrical_of items) ≤ 1)%nat) as [Hfew|Hmany].
  - rewrite generate_safety_constraints_few in H by done.
    injection H as <- _. rewrite (proj2 (Nat.ltb_ge _ _) Hfew).
    unfold fixed_constraints. rewrite length_fixed_constraints.
    unfold electrical_of. lia.
  - destruct (generate_safety_constraints_pair locations items g)
      as (o1 & o2 & g1 & _ & Hrun); [lia|].
    rewrite Hrun in H. injection H as <- _.
    rewrite (proj2 (Nat.ltb_lt 1 _)) by lia.
    rewrite length_app. unfold fixed_constraints. rewrite length_fixed_constraints.
    unfold electrical_of. simpl. lia.
Qed.

Lemma number_of_enumerated_constraints_witness :
  ∃ cs g',
    generate_safety_constraints [kitchen; garden]
      [cat; electric_kettle; wine_glass; hair_dryer; chefs_knife] tape_succ
    = Ok (cs, g')
    ∧ length cs = 7%nat.
Proof.
  eexists _, _. split; [vm_compute; reflexivity|].
  rewrite (number_of_enumerated_constraints [kitchen; garden]
             [cat; electric_kettle; wine_glass; hair_dryer; chefs_knife]
             tape_succ _ _ ltac:(vm_compute; reflexivity)).
  vm_compute. reflexivity.
Defined.

(** X6. Asking for at least as many constraints as are applicable returns
    all of them, each once, in the order of the random draw (a permutation
    of the applicable list), whereas the sentinel [-1] keeps the enumeration
    order. *)
Theorem select_capped_is_permutation (applicable : list entry) (k : Z) (g : rng)
    sel g' :
  Z.of_nat (length applicable) ≤ k →
  select_safety_constraints applicable k g = Ok (sel, g') →
  sel ≡ₚ applicable.
Proof.
  intros Hk H.
  destruct (select_count applicable k g) as (sel' & g1 & Hrun & Hlen & Hsub); [lia|].
  rewrite Hrun in H. injection H as -> _.
  apply submseteq_length_Permutation; [done|]. lia.
Qed.

Lemma select_capped_is_permutation_witness :
  ∃ sel g',
    select_safety_constraints
      [dont_go_near_item cat; dont_pick_plugged_item electric_kettle;
       use_both_hands_for_item wine_glass] 5 tape_succ = Ok (sel, g')
    ∧ sel ≡ₚ [dont_go_near_item cat; dont_pick_plugged_item electric_kettle;
              use_both_hands_for_item wine_glass]
    ∧ sel ≠ [dont_go_near_item cat; dont_pick_plugged_item electric_kettle;
             use_both_hands_for_item wine_glass].
Proof.
  eexists _, _. split; [vm_compute; reflexivity|]. split.
  - eapply (select_capped_is_permutation _ 5 tape_succ); [simpl; lia|].
    vm_compute; reflexivity.
  - by_compute.
Defined.

(** ** The initial state, continued *)

Lemma place_items_spec locations items : ∀ s g s' g',
  foldM (place_item locations) items s g = Ok (s', g') →
  ∃ ls, length ls = length items
        ∧ Forall (fun l => l ∈ locations) ls
        ∧ s'.1 = s.1 ++ zip_with init_at items ls
        ∧ s'.2 = foldl (fun m p => <[name p.1 := p.2]> m) (s.2) (zip items ls).
Proof.
  induction items as [|x items IH]; intros s g s' g' H; simpl in H.
  - apply ret_Ok in H as [<- _]. exists []. by rewrite app_nil_r.
  - inv_bind H as s1 g1 Hp. unfold place_item in Hp.
    inv_bind Hp as l g2 Hl. apply choice_Ok in Hl as [Hl _].
    apply ret_Ok in Hp as [<- _].
    apply IH in H as (ls & Hlen & Hin & H1 & H2). simpl in H1, H2.
    exists (l :: ls). split; [simpl; lia|]. split; [by constructor|].
    split; [by rewrite H1, <- app_assoc | done].
Qed.

Lemma plug_items_spec items : ∀ preds g preds' g',
  foldM plug_item items preds g = Ok (preds', g') →
  ∃ plugged, plugged `sublist_of` electrical_of items
             ∧ preds' = preds ++ map init_plugged_in plugged.
Proof.
  induction items as [|x items IH]; intros preds g preds' g' H; simpl in H.
  - apply ret_Ok in H as [<- _]. exists []. by rewrite app_nil_r.
  - inv_bind H as p1 g1 Hp. unfold plug_item in Hp. unfold electrical_of.
    rewrite filter_cons.
    destruct (has_property ELECTRICAL x) eqn:E.
    + rewrite decide_True by done.
      inv_bind Hp as b g2 Hb. destruct b; apply ret_Ok in Hp as [<- _];
        apply IH in H as (ps & Hsub & ->).
      * exists (x :: ps). split; [by apply sublist_skip|].
        by rewrite <- app_assoc.
      * exists ps. split; [by apply sublist_cons | done].
    + rewrite decide_False by (by intros []).
      apply ret_Ok in Hp as [<- _]. by apply IH in H.
Qed.

Lemma lookup_placed_other (items : list Item) : ∀ (ls : list Location)
    (m : gmap string Location) n,
  n ∉ map name items →
  foldl (fun m p => <[name p.1 := p.2]> m) m (zip items ls) !! n = m !! n.
Proof.
  induction items as [|x items IH]; intros ls m n Hn; [done|].
  destruct ls as [|l ls]; [done|]. simpl.
  rewrite IH by (intros ?; apply Hn; by right).
  apply lookup_insert_ne. intros <-. apply Hn. left.
Qed.

Lemma lookup_placed_at (items : list Item) : ∀ (ls : list Location)
    (m : gmap string Location) i obj l,
  NoDup (map name items) →
  items !! i = Some obj → ls !! i = Some l →
  foldl (fun m p => <[name p.1 := p.2]> m) m (zip items ls) !! name obj = Some l.
Proof.
  induction items as [|x items IH]; intros ls m i obj l Hnd Hi Hl; [done|].
  destruct ls as [|l0 ls]; [done|]. simpl in Hnd.
  apply NoDup_cons in Hnd as [Hx Hnd]. destruct i as [|i]; simpl in *.
  - injection Hi as ->. injection Hl as ->.
    rewrite lookup_placed_other by done. apply lookup_insert_eq.
  - by eapply IH.
Qed.

Lemma lookup_placed_dom (items : list Item) : ∀ (ls : list Location)
    (m : gmap string Location) n,
  length ls = length items →
  is_Some (foldl (fun m p => <[name p.1 := p.2]> m) m (zip items ls) !! n)
  ↔ is_Some (m !! n) ∨ n ∈ map name items.
Proof.
  induction items as [|x items IH]; intros ls m n Hlen.
  - simpl. split; [by left | intros [?|?%elem_of_nil]; done].
  - destruct ls as [|l ls]; [done|]. simpl in *.
    rewrite IH by lia. rewrite lookup_insert. rewrite elem_of_cons.
    destruct (decide (name x = n)) as [->|Hne]; simpl.
    + split; [intros _; right; by left | intros _; left; by eexists].
    + split; [intros [?|?]; auto | intros [?|[?|?]]; auto; congruence].
Qed.

(** X7. The initial state has, after the robot's position and the empty
    hands, exactly one [(at item location)] fact per item, in item order and
    at a location of the list, followed by [(plugged-in item)] facts of some
    of the Electrical items, each at most once and in item order. When the
    items have pairwise different names, the returned dict maps each item's
    name to the location of its [(at ...)] fact and has no other key. *)
Theorem initial_state_places_every_item (locations : list Location)
    (items : list Item) (g : rng) st il g' :
  NoDup (map name items) →
  generate_random_initial_state locations items g = Ok ((st, il), g') →
  ∃ robot ls plugged,
    st = init_robot_at robot :: init_hands_empty
         :: zip_with init_at items ls ++ map init_plugged_in plugged
    ∧ robot ∈ locations
    ∧ length ls = length items
    ∧ Forall (fun l => l ∈ locations) ls
    ∧ plugged `sublist_of` electrical_of items
    ∧ (∀ i obj l, items !! i = Some obj → ls !! i = Some l →
                  il !! name obj = Some l)
    ∧ (∀ n, is_Some (il !! n) ↔ n ∈ map name items).
Proof.
  intros Hnd H. unfold generate_random_initial_state in H.
  inv_bind H as robot g1 Hrobot. apply choice_Ok in Hrobot as [Hrobot _].
  inv_bind H as s g2 Hplace. inv_bind H as preds g3 Hplug.
  apply ret_Ok in H as [[= <- <-] _].
  apply place_items_spec in Hplace as (ls & Hlen & Hls & H1 & H2).
  apply plug_items_spec in Hplug as (plugged & Hsub & ->).
  simpl in H1, H2. exists robot, ls, plugged.
  split; [by rewrite H1|]. split; [done|]. split; [done|].
  split; [done|]. split; [done|]. rewrite H2. split.
  - intros i obj l Hi Hl. by eapply lookup_placed_at.
  - intros n. rewrite lookup_placed_dom by done. rewrite lookup_empty.
    split; [intros [[? [=]]|?]; done | by right].
Qed.

Lemma initial_state_places_every_item_witness :
  match generate_random_initial_state [kitchen; bedroom] [cat; electric_kettle]
          tape_odd with
  | Ok ((st, il), g') =>
      ∃ robot ls plugged,
        st = init_robot_at robot :: init_hands_empty
             :: zip_with init_at [cat; electric_kettle] ls
                ++ map init_plugged_in plugged
        ∧ (∀ i obj l, [cat; electric_kettle] !! i = Some obj → ls !! i = Some l →
                      il !! name obj = Some l)
        ∧ (∀ n, is_Some (il !! n) ↔ n ∈ map name [cat; electric_kettle])
  | Raise _ => False
  end.
Proof.
  assert (match generate_random_initial_state [kitchen; bedroom]
                  [cat; electric_kettle] tape_odd with
          | Ok _ => true
          | Raise _ => false
          end = true) as Hok by (vm_compute; reflexivity).
  destruct (generate_random_initial_state [kitchen; bedroom]
              [cat; electric_kettle] tape_odd) as [[[st il] g']|e] eqn:E;
    [|discriminate Hok].
  destruct (initial_state_places_every_item [kitchen; bedroom]
              [cat; electric_kettle] tape_odd st il g' ltac:(by_compute) E)
    as (robot & ls & plugged & Hst & _ & _ & _ & _ & Hil & Hdom).
  exists robot, ls, plugged. split; [exact Hst|]. split; [exact Hil | exact Hdom].
Defined.

(** ** Goals, continued *)




(** ** Parentheses of the whole problem text *)

Lemma depth_app a b d d1 d2 :
  paren_depth a d = Some d1 → paren_depth b d1 = Some d2 →
  paren_depth (a +:+ b) d = Some d2.
Proof. intros Ha Hb. by rewrite paren_depth_app, Ha. Qed.

(** Read a text piece by piece: a piece known to be balanced keeps the
    depth, a literal piece is evaluated. *)
Ltac read_depth :=
  first
    [ match goal with
      | H : balanced ?x |- paren_depth ?x _ = _ => apply H
      end
    | eapply depth_app; [read_depth | read_depth]
    | reflexivity ].

Lemma balanced_typed_line (names : list string) (ty : string) :
  Forall balanced names → balanced ty →
  balanced (if (0 <? length names)%nat
            then "    " +:+ join " " names +:+ ty +:+ LF else "").
Proof.
  intros Hnames Hty. destruct (0 <? length names)%nat; [|by intros d].
  assert (balanced (join " " names)) as Hj
    by (apply balanced_join; [by apply paren_free_balanced | done]).
  intros d. read_depth.
Qed.

Lemma init_entries_balanced locations items g st il g' :
  Forall (fun obj => balanced (name obj)) items →
  Forall (fun loc => balanced (loc_name loc)) locations →
  generate_random_initial_state locations items g = Ok ((st, il), g') →
  Forall balanced (map fst st).
Proof.
  intros Hitems Hlocs
    (robot & rest & Hrobot & -> & Hrest)%generate_random_initial_state_Ok.
  rewrite Forall_forall in Hitems. rewrite Forall_forall in Hlocs.
  apply Hlocs in Hrobot. simpl.
  constructor; [follow_parens|]. constructor; [by intros d|].
  apply Forall_fmap. eapply Forall_impl; [exact Hrest|].
  intros e [(obj & loc & Hobj & Hloc & ->)|(obj & Hobj & _ & ->)];
    repeat match goal with
           | H : _ ∈ items |- _ => apply Hitems in H
           | H : _ ∈ locations |- _ => apply Hlocs in H
           end; simpl; follow_parens.
Qed.

Lemma goal_entries_balanced locations items il g goals g' :
  Forall (fun obj => balanced (name obj)) items →
  Forall (fun loc => balanced (loc_name loc)) locations →
  generate_random_goals locations items il g = Ok (goals, g') →
  Forall balanced (map fst goals).
Proof.
  intros Hitems Hlocs
    (lgi & lg & pgi & pg & hgi & rg & -> & Hsub1 & _ & F1 & Hsub2 & F2
     & Hsub3 & _ & Hrg)%generate_random_goals_Ok.
  rewrite Forall_forall in Hitems. rewrite Forall_forall in Hlocs.
  assert (∀ obj, obj ∈ lgi → balanced (name obj)) as H1
    by (intros obj Hobj; apply Hitems; by eapply elem_of_submseteq).
  assert (∀ obj, obj ∈ pgi → balanced (name obj)) as H2.
  { intros obj Hobj. apply Hitems.
    assert (obj ∈ electrical_of items) as Hin by (by eapply elem_of_submseteq).
    by apply list_elem_of_filter in Hin as [_ ?]. }
  assert (∀ obj, obj ∈ hgi → balanced (name obj)) as H3.
  { intros obj Hobj. apply Hitems.
    assert (obj ∈ filter (fun e => e ∉ lgi) items) as Hin
      by (by eapply elem_of_submseteq).
    by apply list_elem_of_filter in Hin as [_ ?]. }
  rewrite !fmap_app. repeat apply Forall_app_2.
  - clear -F1 H1 Hlocs. induction F1 as [|obj e lgi lg (l & Hl & ->) _ IH]; simpl.
    + constructor.
    + constructor; [|apply IH; intros; apply H1; by right].
      apply Hlocs in Hl. pose proof (H1 obj ltac:(left)) as Hobj. follow_parens.
  - clear -F2 H2. induction F2 as [|obj e pgi pg He _ IH]; simpl.
    + constructor.
    + constructor; [|apply IH; intros; apply H2; by right].
      pose proof (H2 obj ltac:(left)) as Hobj. destruct He as [->| ->]; follow_parens.
  - clear -H3. induction hgi as [|obj hgi IH]; simpl.
    + constructor.
    + constructor; [|apply IH; intros; apply H3; by right].
      pose proof (H3 obj ltac:(left)) as Hobj. follow_parens.
  - destruct Hrg as [->|(l & Hl & ->)]; simpl; [constructor|].
    apply Hlocs in Hl. constructor; [follow_parens | constructor].
Qed.

Lemma problem_text_depth (objs init goals block : string) :
  balanced objs → balanced init → balanced goals → balanced block →
  paren_depth
    (("(define (problem random-manipulation) " +:+ LF
      +:+ "  (:domain manipulation) " +:+ LF
      +:+ objs
      +:+ "  (:init " +:+ LF
      +:+ "    " +:+ init +:+ " " +:+ LF
      +:+ "  ) " +:+ LF
      +:+ "  (:goal " +:+ LF
      +:+ "    (and " +:+ LF
      +:+ "      " +:+ goals +:+ " " +:+ LF
      +:+ "    ) " +:+ LF
      +:+ "  ) " +:+ LF)
     +:+ block +:+ closing) 0
  = Some O.
Proof. intros Ho Hi Hg Hb. read_depth. Qed.

Lemma objects_section_balanced locations items :
  Forall (fun obj => balanced (name obj)) items →
  Forall (fun loc => balanced (loc_name loc)) locations →
  balanced (objects_section locations items).
Proof.
  intros Hitems Hlocs.
  assert (balanced (join " " (map loc_name locations))) as Hl.
  { apply balanced_join; [by apply paren_free_balanced|]. by apply Forall_fmap. }
  assert (balanced (item_line items)) as Hi.
  { apply balanced_typed_line; [|by apply paren_free_balanced].
    apply Forall_fmap. rewrite Forall_forall in Hitems. apply Forall_forall.
    intros obj [_ Hobj]%list_elem_of_filter. by apply Hitems. }
  assert (balanced (electrical_item_line items)) as He.
  { apply balanced_typed_line; [|by apply paren_free_balanced].
    apply Forall_fmap. rewrite Forall_forall in Hitems. apply Forall_forall.
    intros obj [_ Hobj]%list_elem_of_filter. by apply Hitems. }
  unfold objects_section, location_line. intros d. read_depth.
Qed.

Lemma constraints_block_balanced (sel : list entry) :
  Forall (fun c => balanced (fst c)) sel → balanced (constraints_block sel).
Proof.
  intros Hsel. destruct sel as [|c sel]; [by intros d|].
  assert (balanced (join (" " +:+ LF +:+ "    ") (map fst (c :: sel)))) as Hj.
  { apply balanced_join; [by apply paren_free_balanced | by apply Forall_fmap]. }
  unfold constraints_block. intros d. read_depth.
Qed.

(** X9. Both problem texts of a generated instance have matched
    parentheses: reading the text from depth 0, no closing parenthesis comes
    without an open one and the depth is 0 again at the end. *)
Theorem problem_texts_parentheses_match (nl ni nc : Z) (g : rng) inst g' :
  sample_instance nl ni nc g = Ok (inst, g') →
  paren_depth (format_problem inst).1.1.1.1 0 = Some O
  ∧ paren_depth (format_problem inst).1.1.1.2 0 = Some O.
Proof.
  intros Hs.
  destruct (sampled_names_balanced _ _ _ _ _ _ Hs) as [HI HL].
  destruct (selected_are_template_instances _ _ _ _ _ _ Hs) as [Hsub Hall].
  assert (Forall (fun c => balanced (fst c)) (selected_safety_constraints inst))
    as Hsel.
  { rewrite Forall_forall in Hall. apply Forall_forall. intros c Hc.
    eapply template_instance_balanced; [exact HI | exact HL |].
    apply Hall. by eapply elem_of_submseteq. }
  apply sample_instance_Ok in Hs as (g1 & g2 & g3 & g4 & g5 & _ & _ & H3 & _ & _ & H6).
  pose proof (init_entries_balanced _ _ _ _ _ _ HI HL H3) as Hinit.
  pose proof (goal_entries_balanced _ _ _ _ _ _ HI HL H6) as Hgoals.
  pose proof (objects_section_balanced _ _ HI HL) as Hobjs.
  assert (balanced (join (" " +:+ LF +:+ "    ") (map fst (initial_state inst))))
    as Hji by (apply balanced_join; [by apply paren_free_balanced | done]).
  assert (balanced (join (" " +:+ LF +:+ "      ") (map fst (goals inst))))
    as Hjg by (apply balanced_join; [by apply paren_free_balanced | done]).
  split.
  - apply (problem_text_depth _ _ _ _ Hobjs Hji Hjg
             (constraints_block_balanced _ Hsel)).
  - apply (problem_text_depth _ _ _ "" Hobjs Hji Hjg). by intros d.
Qed.

Lemma problem_texts_parentheses_match_witness :
  match sample_instance 3 6 (-1) tape_odd with
  | Ok (inst, g') =>
      paren_depth (format_problem inst).1.1.1.1 0 = Some O
      ∧ paren_depth (format_problem inst).1.1.1.2 0 = Some O
  | Raise _ => False
  end.
Proof.
  assert (match sample_instance 3 6 (-1) tape_odd with
          | Ok _ => true
          | Raise _ => false
          end = true) as Hok by (vm_compute; reflexivity).
  destruct (sample_instance 3 6 (-1) tape_odd) as [[inst g']|e] eqn:E;
    [|discriminate Hok].
  exact (problem_texts_parentheses_match 3 6 (-1) tape_odd inst g' E).
Defined.

(** ** What the templates say *)

Local Arguments lookup_var : simpl never.

Lemma is_name_word n : is_name n = true → is_word n = true.
Proof. by intros [? _]%andb_prop. Qed.

Lemma name_is_not_variable n : is_name n = true → String.eqb "?l" n = false.
Proof.
  intros [_ H]%andb_prop. apply negb_true_iff in H.
  destruct n as [|c n]; [done|].
  change (starts_with "?" (String c n)) with (Ascii.eqb "?" c && true) in H.
  change (String.eqb "?l" (String c n))
    with (if Ascii.eqb "?" c then String.eqb "l" n else false).
  destruct (Ascii.eqb "?" c); [discriminate H | done].
Qed.

Lemma lookup_var_nil n : lookup_var [] n = n.
Proof. reflexivity. Qed.

Lemma lookup_var_same x v : lookup_var [(x, v)] x = v.
Proof. unfold lookup_var. simpl. by rewrite String.eqb_refl. Qed.

Lemma lookup_var_other x v n : String.eqb x n = false → lookup_var [(x, v)] n = n.
Proof. intros H. unfold lookup_var. simpl. by rewrite H. Qed.

Lemma all_true_map {A} (f : A → option bool) (p : A → bool) (l : list A) :
  (∀ o, f o = Some (p o)) → all_true (map f l) = Some (forallb p l).
Proof.
  intros H. unfold all_true. induction l as [|x l IH]; [done|].
  simpl. by rewrite H, IH.
Qed.

(** Read the next name of the formula as one atom. *)
Ltac read_name :=
  match goal with
  | |- context [tokenize (?n +:+ _) _] =>
      rewrite (tokenize_word n) by (by apply is_word_chars, is_name_word);
      simpl;
      rewrite (flush_word n) by (by apply is_name_word);
      simpl
  end.

Ltac read_template :=
  unfold satisfies, read_formula; simpl; repeat read_name.

(** X10. The formula of [impossible_constraint] is false in every state. *)
Theorem impossible_constraint_is_unsatisfiable (loc : Location) (st : State) :
  is_name (loc_name loc) = true →
  satisfies st (fst (impossible_constraint loc)) = Some false.
Proof.
  intros Hn. read_template. rewrite !lookup_var_nil.
  by destruct (fact_holds st ["robot-at"; loc_name loc]).
Qed.

Lemma impossible_constraint_is_unsatisfiable_witness :
  is_name (loc_name kitchen) = true
  ∧ satisfies knife_away_from_cat (fst (impossible_constraint kitchen)) = Some false.
Proof.
  split; [reflexivity|].
  apply (impossible_constraint_is_unsatisfiable kitchen knife_away_from_cat).
  reflexivity.
Defined.

(** X11. The formula of [dont_go_near_item] is true in a state exactly when
    at no declared location both the robot and the item are. *)
Theorem dont_go_near_item_meaning (obj : Item) (st : State) :
  is_name (name obj) = true →
  satisfies st (fst (dont_go_near_item obj))
  = Some (forallb (fun l => negb (fact_holds st ["robot-at"; l]
                                  && fact_holds st ["at"; name obj; l]))
            (objects st "location")).
Proof.
  intros Hn. pose proof (name_is_not_variable _ Hn) as Hv.
  read_template. apply all_true_map. intros l.
  rewrite lookup_var_same, (lookup_var_other _ _ _ Hv).
  by rewrite andb_true_r.
Qed.

Lemma dont_go_near_item_meaning_witness :
  is_name (name cat) = true
  ∧ satisfies knife_away_from_cat (fst (dont_go_near_item cat))
    = Some (forallb (fun l => negb (fact_holds knife_away_from_cat ["robot-at"; l]
                                    && fact_holds knife_away_from_cat
                                         ["at"; name cat; l]))
              (objects knife_away_from_cat "location")).
Proof.
  split; [reflexivity|].
  apply (dont_go_near_item_meaning cat knife_away_from_cat). reflexivity.
Defined.

(** X12. The formula of [use_both_hands_for_item] is true exactly when the
    item is in neither single hand; the formula of [dont_pick_plugged_item]
    is true exactly when the item is not both held (in any grip) and plugged
    in. *)
Theorem unary_item_templates_meaning (obj : Item) (st : State) :
  is_name (name obj) = true →
  satisfies st (fst (use_both_hands_for_item obj))
  = Some (negb (fact_holds st ["holding-left"; name obj]
                || fact_holds st ["holding-right"; name obj]))
  ∧ satisfies st (fst (dont_pick_plugged_item obj))
    = Some (negb ((fact_holds st ["holding-left"; name obj]
                   || fact_holds st ["holding-right"; name obj]
                   || fact_holds st ["holding-both"; name obj])
                  && fact_holds st ["plugged-in"; name obj])).
Proof.
  intros Hn. split.
  - read_template. rewrite !lookup_var_nil. by rewrite orb_false_r.
  - read_template. rewrite !lookup_var_nil.
    by rewrite orb_false_r, andb_true_r, orb_assoc.
Qed.

Lemma unary_item_templates_meaning_witness :
  is_name (name chefs_knife) = true
  ∧ satisfies knife_away_from_cat (fst (use_both_hands_for_item chefs_knife))
    = Some (negb (fact_holds knife_away_from_cat ["holding-left"; name chefs_knife]
                  || fact_holds knife_away_from_cat
                       ["holding-right"; name chefs_knife])).
Proof.
  split; [reflexivity|].
  apply (unary_item_templates_meaning chefs_knife knife_away_from_cat). reflexivity.
Defined.

(** X13. The formula of [dont_take_item_to_location] is true exactly when
    the item is not held (in any grip) or the robot is not at the
    location. *)
Theorem dont_take_item_to_location_meaning (obj : Item) (loc : Location)
    (st : State) :
  is_name (name obj) = true → is_name (loc_name loc) = true →
  satisfies st (fst (dont_take_item_to_location obj loc))
  = Some (implb (fact_holds st ["holding-left"; name obj]
                 || fact_holds st ["holding-right"; name obj]
                 || fact_holds st ["holding-both"; name obj])
            (negb (fact_holds st ["robot-at"; loc_name loc]))).
Proof.
  intros Hn Hl. read_template. rewrite !lookup_var_nil.
  by rewrite orb_false_r, orb_assoc.
Qed.

Lemma dont_take_item_to_location_meaning_witness :
  is_name (name chefs_knife) = true ∧ is_name (loc_name kitchen) = true
  ∧ satisfies knife_away_from_cat (fst (dont_take_item_to_location chefs_knife kitchen))
    = Some false.
Proof.
  split; [reflexivity|]. split; [reflexivity|].
  rewrite (dont_take_item_to_location_meaning chefs_knife kitchen knife_away_from_cat)
    by reflexivity.
  vm_compute. reflexivity.
Defined.

(** X14. The formula of [dont_plug_items_in_same_location] is true exactly
    when at no declared location both items are, with both plugged in. *)
Theorem dont_plug_items_in_same_location_meaning (obj1 obj2 : Item) (st : State) :
  is_name (name obj1) = true → is_name (name obj2) = true →
  satisfies st (fst (dont_plug_items_in_same_location obj1 obj2))
  = Some (forallb (fun l => negb (fact_holds st ["plugged-in"; name obj1]
                                  && fact_holds st ["plugged-in"; name obj2]
                                  && fact_holds st ["at"; name obj1; l]
                                  && fact_holds st ["at"; name obj2; l]))
            (objects st "location")).
Proof.
  intros Hn1 Hn2.
  pose proof (name_is_not_variable _ Hn1) as Hv1.
  pose proof (name_is_not_variable _ Hn2) as Hv2.
  read_template. apply all_true_map. intros l.
  rewrite lookup_var_same, !(lookup_var_other _ _ _ Hv1), !(lookup_var_other _ _ _ Hv2).
  by rewrite andb_true_r, !andb_assoc.
Qed.

Lemma dont_plug_items_in_same_location_meaning_witness :
  is_name (name electric_kettle) = true ∧ is_name (name hair_dryer) = true
  ∧ satisfies knife_away_from_cat
      (fst (dont_plug_items_in_same_location electric_kettle hair_dryer))
    = Some true.
Proof.
  split; [reflexivity|]. split; [reflexivity|].
  rewrite (dont_plug_items_in_same_location_meaning electric_kettle hair_dryer
             knife_away_from_cat) by reflexivity.
  vm_compute. reflexivity.
Defined.

(** X15. The formula of [dont_take_item_to_location_with_another] does not
    mention the robot's position: it is true exactly when the first item is
    not held (in any grip) or the second item is at no declared location. *)
Theorem dont_take_item_to_location_with_another_meaning (obj1 obj2 : Item)
    (st : State) :
  is_name (name obj1) = true → is_name (name obj2) = true →
  satisfies st (fst (dont_take_item_to_location_with_another obj1 obj2))
  = Some (forallb (fun l => negb ((fact_holds st ["holding-left"; name obj1]
                                   || fact_holds st ["holding-right"; name obj1]
                                   || fact_holds st ["holding-both"; name obj1])
                                  && fact_holds st ["at"; name obj2; l]))
            (objects st "location")).
Proof.
  intros Hn1 Hn2.
  pose proof (name_is_not_variable _ Hn1) as Hv1.
  pose proof (name_is_not_variable _ Hn2) as Hv2.
  read_template. apply all_true_map. intros l.
  rewrite lookup_var_same, !(lookup_var_other _ _ _ Hv1), !(lookup_var_other _ _ _ Hv2).
  by rewrite orb_false_r, andb_true_r, orb_assoc.
Qed.

Lemma dont_take_item_to_location_with_another_meaning_witness :
  is_name (name chefs_knife) = true ∧ is_name (name cat) = true
  ∧ satisfies knife_away_from_cat
      (fst (dont_take_item_to_location_with_another chefs_knife cat))
    = Some (forallb
              (fun l => negb ((fact_holds knife_away_from_cat
                                 ["holding-left"; name chefs_knife]
                               || fact_holds knife_away_from_cat
                                    ["holding-right"; name chefs_knife]
                               || fact_holds knife_away_from_cat
                                    ["holding-both"; name chefs_knife])
                              && fact_holds knife_away_from_cat ["at"; name cat; l]))
              (objects knife_away_from_cat "location")).
Proof.
  split; [reflexivity|]. split; [reflexivity|].
  apply (dont_take_item_to_location_with_another_meaning chefs_knife cat
           knife_away_from_cat); reflexivity.
Defined.

(** ** The rejection loop, continued *)

Section ValidityFilterFurther.
Context {Plan W : Type} `{EqDecision Plan}.
Variable run_fast_downward_planner : string → string → bool → W → Plan * W.
Variable get_domain_pddl : string.

Lemma loop_returns (nl ni nc : Z) fuel : ∀ g w problem init_desc goal_desc
    constr_desc g' w',
  generate_one_useful_instance run_fast_downward_planner get_domain_pddl
    fuel nl ni nc g w
  = Some (Ok ((problem, init_desc, goal_desc, constr_desc), g', w')) →
  ∃ g0 w0 problem_wo,
    generate_problem nl ni nc g0
    = Ok ((problem, problem_wo, init_desc, goal_desc, constr_desc), g')
    ∧ optimal_solutions_are_equal run_fast_downward_planner get_domain_pddl
        problem problem_wo w0 = (false, w').
Proof.
  induction fuel as [|fuel IH]; intros g w p i gd cd g' w' H; [discriminate|].
  simpl in H.
  destruct (generate_problem nl ni nc g)
    as [[[[[[p0 pwo0] i0] gd0] cd0] g1]|e] eqn:E; [|discriminate].
  destruct (optimal_solutions_are_equal run_fast_downward_planner
              get_domain_pddl p0 pwo0 w) as [equal w1] eqn:Eo.
  destruct equal; simpl in H; [by eapply IH|].
  injection H as -> -> -> -> -> ->. by exists g, w, pwo0.
Qed.


(** X17. When the plan that the oracle returns depends on the domain and
    problem texts only, [generate_one_useful_instance] never returns an
    instance without constraints: the instance it returns has a non-empty
    selection. So with a constraint count of 0 (and valid numbers of
    locations and items) the loop never returns, however many passes it is
    given. *)
Theorem useful_instance_has_constraints (nl ni nc : Z) :
  (∀ d p o w1 w2,
     (run_fast_downward_planner d p o w1).1 = (run_fast_downward_planner d p o w2).1) →
  (∀ fuel g w problem init_desc goal_desc constr_desc g' w',
     generate_one_useful_instance run_fast_downward_planner get_domain_pddl
       fuel nl ni nc g w
     = Some (Ok ((problem, init_desc, goal_desc, constr_desc), g', w')) →
     ∃ g0 inst problem_wo,
       sample_instance nl ni nc g0 = Ok (inst, g')
       ∧ format_problem inst
         = (problem, problem_wo, init_desc, goal_desc, constr_desc)
       ∧ selected_safety_constraints inst ≠ [])
  ∧ (nc = 0 → 1 ≤ nl ≤ 20 → 1 ≤ ni ≤ 21 →
     ∀ fuel g w,
       generate_one_useful_instance run_fast_downward_planner get_domain_pddl
         fuel nl ni nc g w = None).
Proof.
  intros Hpure.
  assert (∀ p w, ∃ w', optimal_solutions_are_equal run_fast_downward_planner
                         get_domain_pddl p p w = (true, w')) as Hsame.
  { intros p w. unfold optimal_solutions_are_equal.
    pose proof (Hpure get_domain_pddl p true w) as Hp.
    destruct (run_fast_downward_planner get_domain_pddl p true w) as [sol1 w1].
    specialize (Hp w1).
    destruct (run_fast_downward_planner get_domain_pddl p true w1) as [sol2 w2].
    simpl in Hp. subst sol2. exists w2. by rewrite bool_decide_eq_true_2. }
  assert (∀ inst, selected_safety_constraints inst = [] →
                  (format_problem inst).1.1.1.1 = (format_problem inst).1.1.1.2)
    as Hempty.
  { intros inst Hsel. unfold format_problem. cbn [fst snd]. by rewrite Hsel. }
  split.
  - intros fuel g w p i gd cd g' w'
      (g0 & w0 & pwo & (inst & Hs & Hf)%generate_problem_Ok & Ho)%loop_returns.
    exists g0, inst, pwo. split; [done|]. split; [done|].
    intros Hsel. apply Hempty in Hsel. rewrite <- Hf in Hsel. simpl in Hsel.
    subst pwo. destruct (Hsame p w0) as [w1 Hw1]. congruence.
  - intros -> Hnl Hni. induction fuel as [|fuel IH]; intros g w; [done|].
    simpl.
    destruct (sample_instance_total nl ni 0 g Hnl Hni) as (inst & g1 & Hs); [lia|].
    assert (generate_problem nl ni 0 g = Ok (format_problem inst, g1)) as ->
      by (apply generate_problem_Ok; eauto).
    assert (selected_safety_constraints inst = []) as Hsel.
    { apply sample_instance_Ok in Hs as (? & ? & ? & g4 & ? & _ & _ & _ & _ & H5 & _).
      destruct (select_count (all_safety_constraints inst) 0 g4) as (sel & g5 & Hrun & Hlen & _);
        [lia|].
      rewrite Hrun in H5. injection H5 as <- _.
      destruct sel; [done | simpl in Hlen; lia]. }
    apply Hempty in Hsel.
    destruct (format_problem inst) as [[[[p pwo] i] gd] cd]. simpl in Hsel.
    subst pwo. destruct (Hsame p w) as [w1 ->]. simpl. apply IH.
Qed.
End ValidityFilterFurther.


Lemma useful_instance_has_constraints_witness :
  (∀ d p o w1 w2, (echo_planner d p o w1).1 = (echo_planner d p o w2).1)
  ∧ generate_one_useful_instance echo_planner "(define (domain manipulation))"
      4 2 3 0 tape_odd O = None.
Proof.
  split; [reflexivity|].
  apply (proj2 (useful_instance_has_constraints echo_planner
                  "(define (domain manipulation))" 2 3 0
                  (fun d p o w1 w2 => eq_refl))); lia.
Defined.

(** ** The files that [main] writes *)

Lemma list_ascii_of_append (a b : string) :
  list_ascii_of_string (a +:+ b) = list_ascii_of_string a ++ list_ascii_of_string b.
Proof. induction a as [|c a IH]; simpl; [done | by f_equal]. Qed.

Lemma list_ascii_of_string_inj (a b : string) :
  list_ascii_of_string a = list_ascii_of_string b → a = b.
Proof.
  intros H. rewrite <- (string_of_list_ascii_of_string a),
    <- (string_of_list_ascii_of_string b). by rewrite H.
Qed.

Lemma append_inj_r (a b s : string) : a +:+ s = b +:+ s → a = b.
Proof.
  intros H. apply list_ascii_of_string_inj.
  apply (f_equal list_ascii_of_string) in H. rewrite !list_ascii_of_append in H.
  by apply app_inv_tail in H.
Qed.

Lemma append_eq_tails (a b x1 x2 t1 t2 : string) :
  length (list_ascii_of_string t1) = length (list_ascii_of_string t2) →
  a +:+ x1 +:+ t1 = b +:+ x2 +:+ t2 → t1 = t2.
Proof.
  intros Hlen H. apply list_ascii_of_string_inj.
  apply (f_equal list_ascii_of_string) in H. rewrite !list_ascii_of_append in H.
  rewrite !app_assoc in H. by apply app_inj_2 in H as [_ ?].
Qed.

(** Compare two paths by their last four characters. *)
Ltac split_suffix s k :=
  lazymatch s with
  | ".pddl" => k "." "pddl"
  | ".init.nl" => k ".ini" "t.nl"
  | ".goal.nl" => k ".goa" "l.nl"
  | ".constraints.nl" => k ".constraint" "s.nl"
  end.

Ltac tails_differ H :=
  lazymatch type of H with
  | ?a +:+ ?s1 = ?b +:+ ?s2 =>
      split_suffix s1 ltac:(fun x1 t1 =>
        split_suffix s2 ltac:(fun x2 t2 =>
          apply (append_eq_tails a b x1 x2 t1 t2 eq_refl) in H;
          discriminate H))
  end.

Lemma tmp_path_inj i j s1 s2 :
  s1 ∈ suffixes → s2 ∈ suffixes →
  tmp_path i s1 = tmp_path j s2 → i = j ∧ s1 = s2.
Proof.
  unfold suffixes, tmp_path. intros H1 H2 H.
  apply (inj (String.append "tmp/")) in H.
  repeat (apply elem_of_cons in H1 as [->|H1]);
    [| | | |by apply elem_of_nil in H1];
    (repeat (apply elem_of_cons in H2 as [->|H2]);
     [| | | |by apply elem_of_nil in H2]);
    first [ apply append_inj_r in H; by apply (inj pretty) in H
          | exfalso; tails_differ H ].
Qed.

Lemma lookup_write_instance_other i texts (fs : gmap string string) path :
  (∀ suffix, suffix ∈ suffixes → path ≠ tmp_path i suffix) →
  write_instance i texts fs !! path = fs !! path.
Proof.
  intros Hp. destruct texts as [[[p id] gd] cd]. unfold write_instance.
  rewrite !lookup_insert_ne; [done|..];
    intros Heq; symmetry in Heq; revert Heq; apply Hp; unfold suffixes; set_solver.
Qed.

Lemma lookup_write_instance i p id gd cd (fs : gmap string string) :
  write_instance i (p, id, gd, cd) fs !! tmp_path i ".pddl" = Some p
  ∧ write_instance i (p, id, gd, cd) fs !! tmp_path i ".init.nl" = Some id
  ∧ write_instance i (p, id, gd, cd) fs !! tmp_path i ".goal.nl" = Some gd
  ∧ write_instance i (p, id, gd, cd) fs !! tmp_path i ".constraints.nl" = Some cd.
Proof.
  assert (∀ s1 s2, s1 ∈ suffixes → s2 ∈ suffixes → s1 ≠ s2 →
                   tmp_path i s1 ≠ tmp_path i s2) as Hne.
  { intros s1 s2 H1 H2 Hs Heq. by apply tmp_path_inj in Heq as [_ ?]. }
  unfold write_instance. repeat split.
  - rewrite !lookup_insert_ne by (apply Hne; unfold suffixes; set_solver).
    apply lookup_insert_eq.
  - rewrite !lookup_insert_ne by (apply Hne; unfold suffixes; set_solver).
    apply lookup_insert_eq.
  - rewrite !lookup_insert_ne by (apply Hne; unfold suffixes; set_solver).
    apply lookup_insert_eq.
  - apply lookup_insert_eq.
Qed.


Section MainProperties.
Context {Plan W : Type} `{EqDecision Plan}.
Variable run_fast_downward_planner : string → string → bool → W → Plan * W.
Variable get_domain_pddl : string.

(** What has happened when the loop over the indices stops: the instances
    of a prefix [finished] of the indices are written. *)
Lemma main_loop_spec fuel args indices : ∀ g w fs,
  NoDup indices →
  ∃ finished rest fs',
    indices = finished ++ rest
    ∧ (∀ i, i ∈ finished →
         instance_files (arg_locations args) (arg_items args)
           (arg_constraints args) i fs')
    ∧ (∀ path, other_path finished path → fs' !! path = fs !! path)
    ∧ match main_loop run_fast_downward_planner get_domain_pddl fuel indices
              args g w fs with
      | Finished fs'' _ _ => fs'' = fs' ∧ rest = []
      | Failed e fs'' =>
          fs'' = fs' ∧ rest ≠ []
          ∧ ∃ g0, generate_problem (arg_locations args) (arg_items args)
                    (arg_constraints args) g0 = Raise e
      | Unfinished fs'' => fs'' = fs' ∧ rest ≠ []
      end.
Proof.
  induction indices as [|i indices IH]; intros g w fs Hnd.
  - exists [], [], fs. split; [done|]. split; [by intros i ?%elem_of_nil|].
    split; [done|]. simpl. done.
  - apply NoDup_cons in Hnd as [Hi Hnd]. simpl.
    destruct (generate_one_useful_instance run_fast_downward_planner
                get_domain_pddl fuel (arg_locations args) (arg_items args)
                (arg_constraints args) g w)
      as [[[[[[[p id] gd] cd] g1] w1]|e]|] eqn:E.
    + destruct (IH g1 w1 (write_instance i (p, id, gd, cd) fs) Hnd)
        as (finished & rest & fs' & -> & Hfiles & Hframe & Hout).
      exists (i :: finished), rest, fs'. split; [done|].
      assert (∀ s, s ∈ suffixes → other_path finished (tmp_path i s)) as Hmine.
      { intros s Hs j s' Hj Hs' Heq. apply tmp_path_inj in Heq as [-> _]; [|done..].
        apply Hi. apply elem_of_app. by left. }
      split; [|split; [|done]].
      * intros j [->|Hj]%elem_of_cons; [|by apply Hfiles].
        apply loop_returns in E
          as (g0 & w0 & pwo & (inst & Hs & Hf)%generate_problem_Ok & _).
        destruct (lookup_write_instance i p id gd cd fs) as (F1 & F2 & F3 & F4).
        exists g0, inst, g1. rewrite <- Hf. simpl.
        rewrite !Hframe by (apply Hmine; unfold suffixes; set_solver).
        done.
      * intros path Hpath. rewrite Hframe.
        -- apply lookup_write_instance_other. intros s Hs. apply Hpath; [left | done].
        -- intros j s Hj Hs. apply Hpath; [by right | done].
    + exists [], (i :: indices), fs. split; [done|].
      split; [by intros j ?%elem_of_nil|]. split; [done|].
      split; [done|]. split; [done|].
      destruct fuel as [|fuel]; [discriminate|].
      clear -E. revert g w E. induction (S fuel) as [|n IHn]; intros g w E;
        [discriminate|]. simpl in E.
      destruct (generate_problem (arg_locations args) (arg_items args)
                  (arg_constraints args) g) as [[[[[[p pwo] id] gd] cd] g1]|e'] eqn:Eg.
      * destruct (optimal_solutions_are_equal run_fast_downward_planner
                    get_domain_pddl p pwo w) as [equal w1].
        destruct equal; simpl in E; [by eapply IHn | discriminate].
      * injection E as ->. by exists g.
    + exists [], (i :: indices), fs. split; [done|].
      split; [by intros j ?%elem_of_nil|]. done.
Qed.

(** X18. When [main] finishes, every instance number [i] from 1 to
    [--problems] has its four files [tmp/i.pddl], [tmp/i.init.nl],
    [tmp/i.goal.nl] and [tmp/i.constraints.nl], and the four hold the problem
    text and the three descriptions of one and the same generated instance
    (no later instance writes over them); every other path of the file
    system is as it was. With [--problems] not positive nothing is generated
    and nothing is written. *)
Theorem main_writes_four_files_per_instance fuel args g w fs :
  (∀ fs' g' w',
     main run_fast_downward_planner get_domain_pddl fuel args g w fs
     = Finished fs' g' w' →
     (∀ i, 1 ≤ i ≤ arg_problems args →
        instance_files (arg_locations args) (arg_items args)
          (arg_constraints args) i fs')
     ∧ (∀ path, other_path (seqZ 1 (arg_problems args)) path →
                fs' !! path = fs !! path))
  ∧ (arg_problems args ≤ 0 →
     main run_fast_downward_planner get_domain_pddl fuel args g w fs
     = Finished fs g w).
Proof.
  split.
  - intros fs' g' w' H. unfold main in H.
    destruct (main_loop_spec fuel args (seqZ 1 (arg_problems args)) g w fs
                (NoDup_seqZ _ _))
      as (finished & rest & fs1 & Hsplit & Hfiles & Hframe & Hout).
    rewrite H in Hout. destruct Hout as [-> ->]. rewrite app_nil_r in Hsplit.
    subst finished. split; [|done].
    intros i Hi. apply Hfiles. apply elem_of_seqZ. lia.
  - intros Hn. unfold main. by rewrite seqZ_nil.
Qed.

End MainProperties.

Lemma main_writes_four_files_per_instance_witness :
  match main stub_planner "(define (domain manipulation))" 6
          (mkArgs 3 6 (-1) 2) tape_odd O ∅ with
  | Finished fs' _ _ =>
      instance_files 3 6 (-1) 1 fs' ∧ instance_files 3 6 (-1) 2 fs'
      ∧ fs' !! "tmp/3.pddl" = None
  | _ => False
  end.
Proof.
  assert (match main stub_planner "(define (domain manipulation))" 6
                  (mkArgs 3 6 (-1) 2) tape_odd O ∅ with
          | Finished _ _ _ => true
          | _ => false
          end = true) as Hok by (vm_compute; reflexivity).
  destruct (main stub_planner "(define (domain manipulation))" 6
              (mkArgs 3 6 (-1) 2) tape_odd O ∅) as [fs' g' w'|e fs'|fs'] eqn:E;
    [|discriminate Hok..].
  destruct (proj1 (main_writes_four_files_per_instance stub_planner
                     "(define (domain manipulation))" 6 (mkArgs 3 6 (-1) 2)
                     tape_odd O ∅) fs' g' w' E) as [Hfiles Hframe].
  split; [apply Hfiles; simpl; lia|]. split; [apply Hfiles; simpl; lia|].
  rewrite Hframe; [done|].
  intros i s Hi Hs Heq. change "tmp/3.pddl" with (tmp_path 3 ".pddl") in Heq.
  apply tmp_path_inj in Heq as [<- _]; [|unfold suffixes; left | done].
  apply elem_of_seqZ in Hi. simpl in Hi. lia.
Defined.


(** ** Texts with and without constraints *)

Lemma template_sentence_not_empty locations items c :
  template_instance locations items c → snd c ≠ "".
Proof. intros []; discriminate. Qed.

(** X20. For a generated instance the problem text and the text without
    constraints are the same text exactly when no constraint is selected,
    and that is also exactly when the constraints description is empty. *)
Theorem texts_coincide_iff_no_constraints (nl ni nc : Z) (g : rng) inst g' :
  sample_instance nl ni nc g = Ok (inst, g') →
  ((format_problem inst).1.1.1.1 = (format_problem inst).1.1.1.2
   ↔ selected_safety_constraints inst = [])
  ∧ ((format_problem inst).2 = ""
     ↔ selected_safety_constraints inst = []).
Proof.
  intros Hs.
  destruct (selected_are_template_instances _ _ _ _ _ _ Hs) as [Hsub Hall].
  unfold format_problem. cbn [fst snd]. split; split.
  - intros H. apply (inj (String.append _)) in H.
    destruct (selected_safety_constraints inst) as [|c sel]; [done|].
    discriminate H.
  - by intros ->.
  - intros H. destruct (selected_safety_constraints inst) as [|c sel] eqn:E; [done|].
    exfalso. rewrite Forall_forall in Hall.
    assert (snd c ≠ "") as Hc.
    { eapply template_sentence_not_empty, Hall.
      eapply elem_of_submseteq; [|exact Hsub]. left. }
    unfold join in H. simpl in H. destruct (snd c); [done|].
    destruct sel; discriminate H.
  - by intros ->.
Qed.

Lemma texts_coincide_iff_no_constraints_witness :
  match sample_instance 3 6 0 tape_odd with
  | Ok (inst, g') =>
      (format_problem inst).1.1.1.1 = (format_problem inst).1.1.1.2
      ∧ (format_problem inst).2 = ""
  | Raise _ => False
  end.
Proof.
  assert (match sample_instance 3 6 0 tape_odd with
          | Ok (inst, _) => bool_decide (selected_safety_constraints inst = [])
          | Raise _ => false
          end = true) as Hok by (vm_compute; reflexivity).
  destruct (sample_instance 3 6 0 tape_odd) as [[inst g']|e] eqn:E;
    [|discriminate Hok].
  apply bool_decide_eq_true in Hok.
  destruct (texts_coincide_iff_no_constraints 3 6 0 tape_odd inst g' E) as [H1 H2].
  split; [by apply H1 | by apply H2].
Defined.
